(** * custom-socket: the connection bootstrap of [mod.ts]

    A shallow embedding of [createConnection] and [createMask].  The
    module is effectful: it dials a socket, builds two stream endpoints
    around it, starts a background read loop, awaits the handshake
    collaborator and assembles the returned object.  The embedding keeps
    that shape: a state-and-exception monad over a [World] that holds the
    socket, the inbound source's controller, the console and an event
    trace, with the platform's answers collected in an [Env].

    What is taken as given: the URL arrives parsed (a string [new URL]
    rejects never reaches the code below).  [await] points are where
    others run: the caller while the dial is pending; the read loop, the
    handshake collaborator and the consumers of the two streams while the
    handshake is pending.  What the platform decides is a parameter: how
    [Headers.set] normalizes and checks, how much of a chunk a write
    takes, what a second [close] does.  A read settles with what the
    transport holds for it, whatever the socket's state: a read the
    platform rejects is a failed read of the script. *)

From Stdlib Require Import ZArith List String Ascii Strings.Byte Bool Lia.
From Stdlib Require Import DecimalString DecimalNat.
From stdpp Require Import base option list strings gmap.

Set Warnings "-abstract-large-number".

Open Scope string_scope.
Open Scope Z_scope.

(** ** Values of the platform *)

(** JavaScript numbers as far as [parseInt] produces them. *)
Inductive JsNumber :=
| Num (z : Z)
| NaN.

(** What can be thrown.  [Error] is the module's own
    [new Error(message)]; the others come from the platform or from the
    collaborators. *)
Inductive Exn :=
| Error (message : string)
| TypeError (message : string)
| BadResource
| TransportError (cause : string)
| HandshakeError (cause : string)
| ReadError (cause : string).

Inductive Outcome (A : Type) :=
| Ret (a : A)
| Throw (e : Exn).
Arguments Ret {A} a.
Arguments Throw {A} e.

(** The fields of a parsed [URL] that [createConnection] destructures.
    [protocol] carries its trailing colon; [port] is the empty string when
    the URL gives none. *)
Record URL := {
  protocol : string;
  hostname : string;
  port : string
}.

(** A plain object used as a string map, in [for ... in] order. *)
Definition JsObject := list (string * string).

(** The [Headers] class: names are case-insensitive, one value per name
    under [set]. *)
Abbreviation Headers := (gmap string string).

Inductive ReadOutcome :=
| ReadData (bytes : list byte)
| ReadEOF
| ReadFail (e : Exn).

(** Calls that reach the platform, as the trace records them. *)
Inductive Event :=
| EvConnect (host : string) (p : JsNumber)
| EvConnectTls (host : string) (p : JsNumber)
| EvRead (result : option nat)
| EvWrite (chunk : list byte)
| EvClose
| EvEnqueue (chunk : list byte)
| EvControllerClose
| EvConsoleError (label : string) (e : Exn)
| EvHandshake (u : URL) (h : Headers)
| EvGetRandomValues (n : nat).

Inductive SocketState :=
| NoSocket
| SocketOpen
| SocketClosed.

(** The background read loop started by the inbound source: suspended on
    a read into [buffer], or finished, possibly with an exception nobody
    awaits. *)
Inductive LoopState :=
| LoopNotStarted
| LoopAwaitingRead (buffer : list byte)
| LoopFinished (unhandled : option Exn).

Record World := {
  trace : list Event;             (* most recent first *)
  socket : SocketState;
  inbox : list ReadOutcome;       (* what the coming reads will settle with *)
  emitted : list (list byte);     (* chunks enqueued on the source, oldest first *)
  close_requested : bool;         (* controller.close() has run *)
  loop : LoopState;
  caller_headers : JsObject;      (* the object the caller passed, by reference *)
  drawn : nat;                    (* bytes taken from the random source so far *)
  cancelled : bool                (* a consumer has cancelled the inbound source *)
}.

(** One step of what may run while [createConnection] is suspended on the
    handshake. *)
Inductive Turn :=
| LoopTurn
| SinkWrite (chunk : list byte)
| SinkClose
| SinkAbort (reason : Exn)
| SourceCancel (reason : Exn)
| CallerMutates (f : JsObject -> JsObject).

(** The platform's and the collaborators' answers: whether the dial is
    refused; what [close] does on a socket closed already; the random
    bytes; what the caller does to its object while the dial is pending;
    the handshake collaborator, as the turns taken while it runs and its
    outcome; how [Headers.set] normalizes a value and whether it refuses
    a name with its normalized value; how many bytes of a chunk
    [conn.write] takes, given what has happened so far. *)
Record Env := {
  dial_result : option Exn;
  close_again : option Exn;
  entropy : nat -> byte;
  caller_while_dialing : JsObject -> JsObject;
  handshake : URL -> Headers -> list Turn * option Exn;
  header_value : string -> string;
  header_refused : string -> string -> option Exn;
  write_takes : list Event -> list byte -> nat
}.

(** ** The monad *)

Definition M (A : Type) : Type := World -> Outcome A * World.

Definition ret {A} (a : A) : M A := fun w => (Ret a, w).
Definition throw {A} (e : Exn) : M A := fun w => (Throw e, w).

Definition bind {A B} (m : M A) (k : A -> M B) : M B :=
  fun w =>
    match m w with
    | (Ret a, w') => k a w'
    | (Throw e, w') => (Throw e, w')
    end.

(** [try { m } catch (e) { h e }] *)
Definition try_catch {A} (m : M A) (h : Exn -> M A) : M A :=
  fun w =>
    match m w with
    | (Ret a, w') => (Ret a, w')
    | (Throw e, w') => h e w'
    end.

Notation "'let*' x ':=' m 'in' k" := (bind m (fun x => k))
  (at level 10, x name, m at level 100, k at level 200, only parsing).
Notation "m '>>' k" := (bind m (fun _ => k))
  (at level 100, k at level 200, right associativity, only parsing).

Definition modify (f : World -> World) : M unit := fun w => (Ret tt, f w).
Definition gets {A} (f : World -> A) : M A := fun w => (Ret (f w), w).

Definition log_event (e : Event) (w : World) : World :=
  {| trace := e :: trace w; socket := socket w; inbox := inbox w;
     emitted := emitted w; close_requested := close_requested w;
     loop := loop w; caller_headers := caller_headers w; drawn := drawn w;
     cancelled := cancelled w |}.

Definition set_socket (s : SocketState) (w : World) : World :=
  {| trace := trace w; socket := s; inbox := inbox w;
     emitted := emitted w; close_requested := close_requested w;
     loop := loop w; caller_headers := caller_headers w; drawn := drawn w;
     cancelled := cancelled w |}.

Definition set_inbox (i : list ReadOutcome) (w : World) : World :=
  {| trace := trace w; socket := socket w; inbox := i;
     emitted := emitted w; close_requested := close_requested w;
     loop := loop w; caller_headers := caller_headers w; drawn := drawn w;
     cancelled := cancelled w |}.

Definition push_emitted (c : list byte) (w : World) : World :=
  {| trace := trace w; socket := socket w; inbox := inbox w;
     emitted := emitted w ++ [c]; close_requested := close_requested w;
     loop := loop w; caller_headers := caller_headers w; drawn := drawn w;
     cancelled := cancelled w |}.

Definition clear_emitted (w : World) : World :=
  {| trace := trace w; socket := socket w; inbox := inbox w;
     emitted := []; close_requested := close_requested w;
     loop := loop w; caller_headers := caller_headers w; drawn := drawn w;
     cancelled := cancelled w |}.

Definition set_close_requested (b : bool) (w : World) : World :=
  {| trace := trace w; socket := socket w; inbox := inbox w;
     emitted := emitted w; close_requested := b;
     loop := loop w; caller_headers := caller_headers w; drawn := drawn w;
     cancelled := cancelled w |}.

Definition set_loop (l : LoopState) (w : World) : World :=
  {| trace := trace w; socket := socket w; inbox := inbox w;
     emitted := emitted w; close_requested := close_requested w;
     loop := l; caller_headers := caller_headers w; drawn := drawn w;
     cancelled := cancelled w |}.

Definition set_caller_headers (h : JsObject) (w : World) : World :=
  {| trace := trace w; socket := socket w; inbox := inbox w;
     emitted := emitted w; close_requested := close_requested w;
     loop := loop w; caller_headers := h; drawn := drawn w;
     cancelled := cancelled w |}.

Definition set_drawn (n : nat) (w : World) : World :=
  {| trace := trace w; socket := socket w; inbox := inbox w;
     emitted := emitted w; close_requested := close_requested w;
     loop := loop w; caller_headers := caller_headers w; drawn := n;
     cancelled := cancelled w |}.

Definition set_cancelled (b : bool) (w : World) : World :=
  {| trace := trace w; socket := socket w; inbox := inbox w;
     emitted := emitted w; close_requested := close_requested w;
     loop := loop w; caller_headers := caller_headers w; drawn := drawn w;
     cancelled := b |}.

Definition emit (e : Event) : M unit := modify (log_event e).

(** The world a caller starts from: nothing dialed yet, [hdrs] the object
    it is about to pass, [reads] what the peer will deliver. *)
Definition initial (hdrs : JsObject) (reads : list ReadOutcome) : World :=
  {| trace := []; socket := NoSocket; inbox := reads; emitted := [];
     close_requested := false; loop := LoopNotStarted;
     caller_headers := hdrs; drawn := 0%nat; cancelled := false |}.

(** ** Strings and numbers *)

(** [a || b] on strings: the empty string is falsy. *)
Definition js_or (a b : string) : string :=
  match a with
  | EmptyString => b
  | _ => a
  end.

Definition is_space (c : ascii) : bool :=
  let n := nat_of_ascii c in
  ((n =? 32) || ((9 <=? n) && (n <=? 13)))%nat.

Fixpoint skip_spaces (s : string) : string :=
  match s with
  | String c s' => if is_space c then skip_spaces s' else s
  | EmptyString => s
  end.

Definition digit_value (radix : Z) (c : ascii) : option Z :=
  let n := Z.of_nat (nat_of_ascii c) in
  let v := if (48 <=? n) && (n <=? 57) then Some (n - 48)
           else if (97 <=? n) && (n <=? 122) then Some (n - 87)
           else if (65 <=? n) && (n <=? 90) then Some (n - 55)
           else None in
  match v with
  | Some d => if d <? radix then Some d else None
  | None => None
  end.

(** The longest prefix of digits of the radix, as their values. *)
Fixpoint digit_prefix (radix : Z) (s : string) : list Z :=
  match s with
  | String c s' =>
      match digit_value radix c with
      | Some d => d :: digit_prefix radix s'
      | None => []
      end
  | EmptyString => []
  end.

Definition digits_value (radix : Z) (ds : list Z) : Z :=
  fold_left (fun acc d => acc * radix + d) ds 0.

Definition parse_magnitude (radix : Z) (s : string) : JsNumber :=
  match digit_prefix radix s with
  | [] => NaN
  | ds => Num (digits_value radix ds)
  end.

Definition negate (n : JsNumber) : JsNumber :=
  match n with
  | Num z => Num (- z)
  | NaN => NaN
  end.

Definition parse_unsigned (s : string) : JsNumber :=
  match s with
  | String "0" (String "x" s') => parse_magnitude 16 s'
  | String "0" (String "X" s') => parse_magnitude 16 s'
  | _ => parse_magnitude 10 s
  end.

(** [parseInt(s)] with no radix argument. *)
Definition parseInt (s : string) : JsNumber :=
  match skip_spaces s with
  | String "-" s' => negate (parse_unsigned s')
  | String "+" s' => parse_unsigned s'
  | s' => parse_unsigned s'
  end.

(** The [port] a parsed URL reports: empty when the URL names no port or
    names the default port of its scheme, the decimal numeral otherwise. *)
Definition default_port (proto : string) : option nat :=
  if String.eqb proto "http:" then Some 80%nat
  else if String.eqb proto "ws:" then Some 80%nat
  else if String.eqb proto "https:" then Some 443%nat
  else if String.eqb proto "wss:" then Some 443%nat
  else if String.eqb proto "ftp:" then Some 21%nat
  else None.

Definition decimal (n : nat) : string := NilEmpty.string_of_uint (Nat.to_uint n).

Definition url_port (proto : string) (explicit : option nat) : string :=
  match explicit with
  | None => ""
  | Some p =>
      match default_port proto with
      | Some d => if (p =? d)%nat then "" else decimal p
      | None => decimal p
      end
  end.

Definition parsed_url (proto host : string) (explicit : option nat) : URL :=
  {| protocol := proto; hostname := host; port := url_port proto explicit |}.

(** ** The socket *)

Definition Uint8Array (n : nat) : list byte := repeat x00 n.
Definition subarray (from to : nat) (a : list byte) : list byte :=
  drop from (take to a).

(** [await Deno.connect({ hostname, port })].  While the dial is pending
    the caller runs and may touch the object it passed. *)
Definition while_dialing (env : Env) : M unit :=
  modify (fun w => set_caller_headers (caller_while_dialing env (caller_headers w)) w).

Definition settle_dial (env : Env) : M unit :=
  match dial_result env with
  | Some e => throw e
  | None => modify (set_socket SocketOpen)
  end.

Definition Deno_connect (env : Env) (host : string) (p : JsNumber) : M unit :=
  emit (EvConnect host p) >> while_dialing env >> settle_dial env.

Definition Deno_connectTls (env : Env) (host : string) (p : JsNumber) : M unit :=
  emit (EvConnectTls host p) >> while_dialing env >> settle_dial env.

(** [conn.close()]: an open socket becomes closed; on a socket that is
    closed already the platform decides ([close_again]). *)
Definition conn_close (env : Env) : M unit :=
  emit EvClose >>
  let* s := gets socket in
  match s with
  | SocketOpen => modify (set_socket SocketClosed)
  | _ =>
      match close_again env with
      | Some e => throw e
      | None => ret tt
      end
  end.

(** [conn.write(chunk)]: the socket takes a prefix of the chunk, as long
    as the platform decides ([write_takes]), and answers its length. *)
Definition conn_write (env : Env) (chunk : list byte) : M nat :=
  let* s := gets socket in
  match s with
  | SocketOpen =>
      let* t := gets trace in
      let n := Nat.min (write_takes env t chunk) (length chunk) in
      emit (EvWrite (take n chunk)) >> ret n
  | _ => throw BadResource
  end.

(** [conn.read(buffer)] settling with [r]: at most [buffer.length] bytes
    are copied to the front of the buffer, the rest stays for the next
    read; [null] at end of stream. *)
Definition conn_read (buffer : list byte) (r : ReadOutcome)
  : M (option nat * list byte) :=
  match r with
  | ReadData bs =>
      let n := Nat.min (length bs) (length buffer) in
      modify (fun w =>
                match drop n bs with
                | [] => w
                | rest => set_inbox (ReadData rest :: inbox w) w
                end) >>
      emit (EvRead (Some n)) >>
      ret (Some n, (take n bs ++ drop n buffer)%list)
  | ReadEOF => emit (EvRead None) >> ret (None, buffer)
  | ReadFail e => throw e
  end.

Definition console_error (label : string) (e : Exn) : M unit :=
  emit (EvConsoleError label e).

(** ** The outbound sink: the three methods given to [WritableStream] *)

Definition sink_write (env : Env) (chunk : list byte) : M nat :=
  conn_write env chunk.

Definition sink_close (env : Env) : M unit := conn_close env.

Definition sink_abort (env : Env) (err : Exn) : M unit :=
  console_error "Stream aborted:" err >> conn_close env.

(** ** The inbound source *)

(** The controller refuses [enqueue] and [close] once [close] was
    requested or a consumer has cancelled the stream. *)
Definition controller_shut (w : World) : bool :=
  close_requested w || cancelled w.

Definition controller_enqueue (chunk : list byte) : M unit :=
  let* c := gets controller_shut in
  if c then throw (TypeError "The stream is not in a state that permits enqueue")
  else emit (EvEnqueue chunk) >> modify (push_emitted chunk).

Definition controller_close : M unit :=
  let* c := gets controller_shut in
  if c then throw (TypeError "The stream is not in a state that permits close")
  else emit EvControllerClose >> modify (set_close_requested true).

(** One pass through the body of [while (true)], entered when the read
    settles with [r]; [true] to go round again, [false] for [break]. *)
Definition loop_body (buffer : list byte) (r : ReadOutcome) : M bool :=
  let* res := conn_read buffer r in
  match fst res with
  | None => ret false
  | Some bytesRead =>
      controller_enqueue (subarray 0 bytesRead (snd res)) >> ret true
  end.

(** The [finally] block; it ends the loop, and what it throws is left as
    an unhandled rejection. *)
Definition loop_finally (env : Env) : M unit :=
  fun w =>
    match (controller_close >> conn_close env) w with
    | (Ret _, w') => (Ret tt, set_loop (LoopFinished None) w')
    | (Throw e, w') => (Ret tt, set_loop (LoopFinished (Some e)) w')
    end.

(** What the loop does from one settled read to its next suspension. *)
Definition read_loop_turn (env : Env) : M unit :=
  fun w =>
    match loop w, inbox w with
    | LoopAwaitingRead buffer, r :: rest =>
        (let* again :=
           try_catch (loop_body buffer r)
             (fun err =>
                console_error "Error reading from connection:" err >> ret false) in
         if (again : bool)
         then modify (set_loop (LoopAwaitingRead (Uint8Array 1024)))
         else loop_finally env) (set_inbox rest w)
    | _, _ => (Ret tt, w)
    end.

(** A stream just constructed: nothing enqueued, not closed, not
    cancelled, and [start] has run up to the first
    [await conn.read(buffer)]. *)
Definition fresh_source (w : World) : World :=
  set_loop (LoopAwaitingRead (Uint8Array 1024))
    (set_cancelled false (set_close_requested false (clear_emitted w))).

(** [new ReadableStream({ start })] *)
Definition start_source : M unit := modify fresh_source.

(** ** Headers *)

Definition lower_ascii (c : ascii) : ascii :=
  let n := nat_of_ascii c in
  if ((65 <=? n) && (n <=? 90))%nat then ascii_of_nat (n + 32) else c.

Fixpoint lowercase (s : string) : string :=
  match s with
  | String c s' => String (lower_ascii c) (lowercase s')
  | EmptyString => EmptyString
  end.

(** [headers.set(name, value)]: the value is normalized, name and value
    are checked, and the value replaces what the name had. *)
Definition Headers_set (env : Env) (name value : string) (h : Headers)
  : Outcome Headers :=
  let v := header_value env value in
  match header_refused env name v with
  | Some e => Throw e
  | None => Ret (<[lowercase name := v]> h)
  end.

Definition js_keys (o : JsObject) : list string := map fst o.

Fixpoint js_get (o : JsObject) (k : string) : option string :=
  match o with
  | (k', v) :: o' => if String.eqb k k' then Some v else js_get o' k
  | [] => None
  end.

(** The body of the copy loop over the names [ks] still to visit; the
    first refusal ends it. *)
Fixpoint set_each (env : Env) (o : JsObject) (ks : list string) (h : Headers)
  : Outcome Headers :=
  match ks with
  | [] => Ret h
  | header :: ks' =>
      match Headers_set env header (default "undefined" (js_get o header)) h with
      | Ret h' => set_each env o ks' h'
      | Throw e => Throw e
      end
  end.

(** [for (const header in headers) headersObject.set(header, headers[header])] *)
Definition copy_into (env : Env) (o : JsObject) (h : Headers) : Outcome Headers :=
  set_each env o (js_keys o) h.

(** [const headersObject = new Headers()] and the loop over the caller's
    object as it is now. *)
Definition copy_headers (env : Env) : M Headers :=
  fun w => (copy_into env (caller_headers w) ∅, w).

(** ** The handshake collaborator *)

Definition discard {A} (m : M A) : M unit :=
  fun w => (Ret tt, snd (m w)).

(** A turn taken while [createConnection] is suspended; what a sink
    method throws goes to whoever called it, not to [createConnection].
    Cancelling the source only marks the stream: the underlying source
    given to [ReadableStream] has no [cancel] method. *)
Definition run_turn (env : Env) (t : Turn) : M unit :=
  match t with
  | LoopTurn => read_loop_turn env
  | SinkWrite chunk => discard (sink_write env chunk)
  | SinkClose => discard (sink_close env)
  | SinkAbort reason => discard (sink_abort env reason)
  | SourceCancel _ => modify (set_cancelled true)
  | CallerMutates f =>
      modify (fun w => set_caller_headers (f (caller_headers w)) w)
  end.

Fixpoint run_turns (env : Env) (ts : list Turn) : M unit :=
  match ts with
  | [] => ret tt
  | t :: ts' => run_turn env t >> run_turns env ts'
  end.

(** [await handshake(parsedURL, headersObject, readableStream,
    writableStream)] *)
Definition await_handshake (env : Env) (u : URL) (h : Headers) : M unit :=
  emit (EvHandshake u h) >>
  run_turns env (fst (handshake env u h)) >>
  match snd (handshake env u h) with
  | Some e => throw e
  | None => ret tt
  end.

(** ** The masking key *)

Definition getRandomValues (env : Env) (buffer : list byte) : M (list byte) :=
  fun w =>
    (Ret (imap (fun i _ => entropy env (drawn w + i)%nat) buffer),
     set_drawn (drawn w + length buffer)%nat
       (log_event (EvGetRandomValues (length buffer)) w)).

Definition createMask (env : Env) : M (list byte) :=
  getRandomValues env (Uint8Array 4).

(** ** createConnection *)

Inductive Value :=
| VConn
| VReadableStream
| VWritableStream
| VUint8Array (bytes : list byte).

(** An object literal: its properties in order. *)
Definition JsRecord := list (string * Value).

Definition unknown_protocol (proto : string) : Exn :=
  Error ("WS: Unknown protocol supplied to connect: " ++ proto).

Definition dial (env : Env) (u : URL) : M unit :=
  if String.eqb (protocol u) "http:" || String.eqb (protocol u) "ws:" then
    Deno_connect env (hostname u) (parseInt (js_or (port u) "80"))
  else if String.eqb (protocol u) "https:" || String.eqb (protocol u) "wss:" then
    Deno_connectTls env (hostname u) (parseInt (js_or (port u) "443"))
  else
    throw (unknown_protocol (protocol u)).

Definition createConnection (env : Env) (u : URL) : M JsRecord :=
  dial env u >>
  let* headersObject := copy_headers env in
  start_source >>
  try_catch (await_handshake env u headersObject)
            (fun e => conn_close env >> throw e) >>
  let* mask := createMask env in
  ret [("conn", VConn);
       ("readableStream", VReadableStream);
       ("writableStream", VWritableStream);
       ("mask", VUint8Array mask)].

(** ** The declared interface *)

Inductive TypeName :=
| TConn
| TBufReader
| TBufWriter
| TUint8Array
| TReadableStream
| TWritableStream.

Definition TypeName_eqb (a b : TypeName) : bool :=
  match a, b with
  | TConn, TConn | TBufReader, TBufReader | TBufWriter, TBufWriter
  | TUint8Array, TUint8Array | TReadableStream, TReadableStream
  | TWritableStream, TWritableStream => true
  | _, _ => false
  end.

(** [export interface Connection] *)
Definition Connection : list (string * TypeName) :=
  [("conn", TConn); ("bufReader", TBufReader);
   ("bufWriter", TBufWriter); ("mask", TUint8Array)].

Definition type_of (v : Value) : TypeName :=
  match v with
  | VConn => TConn
  | VReadableStream => TReadableStream
  | VWritableStream => TWritableStream
  | VUint8Array _ => TUint8Array
  end.

Fixpoint property (o : JsRecord) (k : string) : option Value :=
  match o with
  | (k', v) :: o' => if String.eqb k k' then Some v else property o' k
  | [] => None
  end.

Definition has_member (o : JsRecord) (m : string * TypeName) : bool :=
  match property o (fst m) with
  | Some v => TypeName_eqb (type_of v) (snd m)
  | None => false
  end.

(** An object conforms to an interface when it has every declared member
    at the declared type. *)
Definition conforms (o : JsRecord) (iface : list (string * TypeName)) : bool :=
  forallb (has_member o) iface.

(** ** Observations on worlds and traces *)

Definition is_dial (e : Event) : bool :=
  match e with
  | EvConnect _ _ | EvConnectTls _ _ => true
  | _ => false
  end.

Definition is_mask_draw (e : Event) : bool :=
  match e with
  | EvGetRandomValues _ => true
  | _ => false
  end.

Definition is_handshake (e : Event) : bool :=
  match e with
  | EvHandshake _ _ => true
  | _ => false
  end.

(** Events of the socket proper. *)
Definition is_socket_io (e : Event) : bool :=
  match e with
  | EvConnect _ _ | EvConnectTls _ _ | EvRead _ | EvWrite _ | EvClose => true
  | _ => false
  end.

(** Events the endpoints and the read loop may produce. *)
Definition background (e : Event) : bool :=
  match e with
  | EvRead _ | EvWrite _ | EvClose | EvEnqueue _ | EvControllerClose
  | EvConsoleError _ _ => true
  | _ => false
  end.

(** [quiet w w']: from [w] to [w'] only the endpoints and the read loop
    ran, and the caller possibly touched its own object. *)
Record quiet (w w' : World) : Prop := {
  quiet_trace : exists t, trace w' = (t ++ trace w)%list /\ forallb background t = true;
  quiet_socket : socket w <> NoSocket -> socket w' <> NoSocket;
  quiet_closed : socket w = SocketClosed -> socket w' = SocketClosed;
  quiet_drawn : drawn w' = drawn w
}.

(** The read loop is live: suspended on a read of a 1024-byte buffer of a
    dialed socket, its controller not yet closed and its stream not
    cancelled. *)
Definition live (w : World) : Prop :=
  loop w = LoopAwaitingRead (Uint8Array 1024) /\
  close_requested w = false /\
  socket w <> NoSocket /\
  cancelled w = false.

(** The loop and the resources it owns agree: a suspended loop reads into
    a fresh buffer, its controller open, its stream not cancelled and its
    socket dialed; a finished loop has closed controller and socket. *)
Definition in_step (w : World) : Prop :=
  match loop w with
  | LoopNotStarted => False
  | LoopAwaitingRead buffer =>
      buffer = Uint8Array 1024 /\ close_requested w = false /\
      socket w <> NoSocket /\ cancelled w = false
  | LoopFinished _ => close_requested w = true /\ socket w = SocketClosed
  end.

(** [n] turns of the read loop, nothing else running in between. *)
Fixpoint run_loop (env : Env) (n : nat) : M unit :=
  match n with
  | O => ret tt
  | S n' => read_loop_turn env >> run_loop env n'
  end.

(** The trace a run of reads leaves, oldest first: each read reported,
    then its bytes enqueued. *)
Definition read_events (ds : list (list byte)) : list Event :=
  flat_map (fun d => [EvRead (Some (length d)); EvEnqueue d]) ds.


(** ** Schemes *)

Inductive Scheme := Http | Ws | Https | Wss.

Definition scheme_protocol (s : Scheme) : string :=
  match s with
  | Http => "http:"
  | Ws => "ws:"
  | Https => "https:"
  | Wss => "wss:"
  end.

Definition supported (proto : string) : bool :=
  String.eqb proto "http:" || String.eqb proto "ws:" ||
  String.eqb proto "https:" || String.eqb proto "wss:".

(** The dial the specification asks for: plain for [http]/[ws], TLS for
    [https]/[wss], on the given port or else on 80 / 443. *)
Definition expected_dial (s : Scheme) (host : string) (explicit : option nat) : Event :=
  match s with
  | Http | Ws => EvConnect host (Num (Z.of_nat (default 80%nat explicit)))
  | Https | Wss => EvConnectTls host (Num (Z.of_nat (default 443%nat explicit)))
  end.

(** Digits of a decimal numeral, most significant first. *)
Fixpoint uint_digits (d : Decimal.uint) : list Z :=
  match d with
  | Decimal.Nil => []
  | Decimal.D0 d' => 0 :: uint_digits d'
  | Decimal.D1 d' => 1 :: uint_digits d'
  | Decimal.D2 d' => 2 :: uint_digits d'
  | Decimal.D3 d' => 3 :: uint_digits d'
  | Decimal.D4 d' => 4 :: uint_digits d'
  | Decimal.D5 d' => 5 :: uint_digits d'
  | Decimal.D6 d' => 6 :: uint_digits d'
  | Decimal.D7 d' => 7 :: uint_digits d'
  | Decimal.D8 d' => 8 :: uint_digits d'
  | Decimal.D9 d' => 9 :: uint_digits d'
  end.

(** ** Sample platforms *)

(** Header values as the Fetch standard normalizes them: HTTP whitespace
    (tab, line feed, carriage return, space) is stripped at both ends. *)
Definition is_http_space (c : ascii) : bool :=
  let n := nat_of_ascii c in
  ((n =? 9) || (n =? 10) || (n =? 13) || (n =? 32))%nat.

Fixpoint strip_left (s : string) : string :=
  match s with
  | String c s' => if is_http_space c then strip_left s' else s
  | EmptyString => s
  end.

Fixpoint strip_right (s : string) : string :=
  match s with
  | String c s' =>
      match strip_right s' with
      | EmptyString => if is_http_space c then EmptyString else String c EmptyString
      | t => String c t
      end
  | EmptyString => s
  end.

Definition http_strip (s : string) : string := strip_right (strip_left s).

(** Header names are HTTP tokens; header values hold no NUL, line feed or
    carriage return. *)
Definition is_token_char (c : ascii) : bool :=
  let n := nat_of_ascii c in
  (((48 <=? n) && (n <=? 57)) || ((65 <=? n) && (n <=? 90)) ||
   ((97 <=? n) && (n <=? 122)) ||
   existsb (Nat.eqb n) [33; 35; 36; 37; 38; 39; 42; 43; 45; 46; 94; 95; 96; 124; 126])%nat.

Fixpoint all_chars (p : ascii -> bool) (s : string) : bool :=
  match s with
  | String c s' => p c && all_chars p s'
  | EmptyString => true
  end.

Definition is_token (s : string) : bool :=
  match s with
  | EmptyString => false
  | _ => all_chars is_token_char s
  end.

Definition is_value_char (c : ascii) : bool :=
  let n := nat_of_ascii c in
  negb ((n =? 0) || (n =? 10) || (n =? 13))%nat.

Definition fetch_refuses (name value : string) : option Exn :=
  if negb (is_token name) then Some (TypeError "Invalid header name")
  else if negb (all_chars is_value_char value) then Some (TypeError "Invalid header value")
  else None.

(** Deno: closing a resource id that is closed already raises
    [BadResource]; [Headers] follows the Fetch standard; a write takes
    the whole chunk. *)
Definition deno (hs : URL -> Headers -> list Turn * option Exn) : Env :=
  {| dial_result := None;
     close_again := Some BadResource;
     entropy := fun i => default x00 (Byte.of_nat (i mod 256));
     caller_while_dialing := fun o => o;
     handshake := hs;
     header_value := http_strip;
     header_refused := fetch_refuses;
     write_takes := fun _ chunk => length chunk |}.

(** A test double whose [close] tolerates repetition. *)
Definition lenient (hs : URL -> Headers -> list Turn * option Exn) : Env :=
  {| dial_result := None;
     close_again := None;
     entropy := fun i => default x00 (Byte.of_nat (i mod 256));
     caller_while_dialing := fun o => o;
     handshake := hs;
     header_value := http_strip;
     header_refused := fetch_refuses;
     write_takes := fun _ chunk => length chunk |}.

Definition accepts : URL -> Headers -> list Turn * option Exn :=
  fun _ _ => ([], None).

Definition rejects : URL -> Headers -> list Turn * option Exn :=
  fun _ _ => ([], Some (HandshakeError "unexpected status")).

(** ** Stages of a call *)

(** The world once the dial has settled successfully with event [ev]. *)
Definition after_dial (env : Env) (ev : Event) (w : World) : World :=
  set_socket SocketOpen
    (set_caller_headers (caller_while_dialing env (caller_headers w))
       (log_event ev w)).

(** The [Headers] built from the caller's object as it is in [w], or
    what [Headers.set] threw. *)
Definition handshake_headers (env : Env) (w : World) : Outcome Headers :=
  copy_into env (caller_headers w) ∅.

(** The world at the moment [handshake] is called with the headers [h]:
    the source has started its loop and the call is on the trace. *)
Definition entering_handshake (u : URL) (h : Headers) (w : World) : World :=
  log_event (EvHandshake u h) (fresh_source w).

(** The world when the handshake settles. *)
Definition leaving_handshake (env : Env) (u : URL) (h : Headers) (w : World)
  : World :=
  snd (run_turns env (fst (handshake env u h)) (entering_handshake u h w)).

Definition handshake_outcome (env : Env) (u : URL) (h : Headers) : option Exn :=
  snd (handshake env u h).

Definition connection_object (mask : list byte) : JsRecord :=
  [("conn", VConn);
   ("readableStream", VReadableStream);
   ("writableStream", VWritableStream);
   ("mask", VUint8Array mask)].

(** What [conn.close()] answers in [w]: nothing on an open socket, the
    platform's answer for a repeated close otherwise. *)
Definition outcome_of_close (env : Env) (w : World) : option Exn :=
  match socket w with
  | SocketOpen => None
  | _ => close_again env
  end.

(** The world after a turn whose read brought [bs]. *)
Definition after_data (bs : list byte) (rest : list ReadOutcome) (w : World) : World :=
  set_loop (LoopAwaitingRead (Uint8Array 1024))
    (push_emitted bs
       (log_event (EvEnqueue bs)
          (log_event (EvRead (Some (length bs))) (set_inbox rest w)))).

(** The world after the turn that ends the loop, [ev] being what the last
    read left on the trace. *)
Definition after_termination (env : Env) (ev : Event) (rest : list ReadOutcome)
    (w : World) : World :=
  let w1 := set_close_requested true
              (log_event EvControllerClose (log_event ev (set_inbox rest w))) in
  set_loop (LoopFinished (outcome_of_close env w))
    (set_socket SocketClosed (log_event EvClose w1)).

(** What a read that ends the loop leaves on the trace: the null read, or
    the logged error. *)
Definition termination_event (r : ReadOutcome) : option Event :=
  match r with
  | ReadData _ => None
  | ReadEOF => Some (EvRead None)
  | ReadFail e => Some (EvConsoleError "Error reading from connection:" e)
  end.

(** The bytes still to come before the stream ends or fails. *)
Fixpoint pending_bytes (i : list ReadOutcome) : list byte :=
  match i with
  | ReadData bs :: i' => (bs ++ pending_bytes i')%list
  | _ => []
  end.

(** The [Headers] objects given to the handshake, most recent first. *)
Fixpoint handshake_calls (t : list Event) : list Headers :=
  match t with
  | EvHandshake _ h :: t' => h :: handshake_calls t'
  | _ :: t' => handshake_calls t'
  | [] => []
  end.

Definition outcome_of (o : option Exn) : Outcome unit :=
  match o with
  | Some e => Throw e
  | None => Ret tt
  end.

(** The last thing a call that reached the handshake does: close the
    socket when the handshake threw, draw the mask when it did not. *)
Definition closing_event (o : option Exn) : Event :=
  match o with
  | Some _ => EvClose
  | None => EvGetRandomValues 4
  end.

(** [env] with another handshake collaborator. *)
Definition with_handshake (env : Env)
    (hs : URL -> Headers -> list Turn * option Exn) : Env :=
  {| dial_result := dial_result env;
     close_again := close_again env;
     entropy := entropy env;
     caller_while_dialing := caller_while_dialing env;
     handshake := hs;
     header_value := header_value env;
     header_refused := header_refused env;
     write_takes := write_takes env |}.

(** ** Sample calls *)

Definition example_url : URL := parsed_url "ws:" "example.test" (Some 8080%nat).

Definition example_headers : JsObject := [("Authorization", "Bearer abc")].

(** A peer that sends three segments and then ends the stream. *)
Definition three_segments : list ReadOutcome :=
  [ReadData [x01; x02]; ReadData [x03]; ReadData [x04; x05; x06]; ReadEOF].

(** What the handshake is given for [example_headers]. *)
Definition example_sent : Headers := <["authorization" := "Bearer abc"]> ∅.

(** The world in which the read loop of [example_url] has just started. *)
Definition example_started (env : Env) (reads : list ReadOutcome) : World :=
  entering_handshake example_url example_sent
    (after_dial env (EvConnect "example.test" (Num 8080))
       (initial example_headers reads)).

(** A collaborator that sees the peer end the stream, then rejects. *)
Definition rejects_after_eof : URL -> Headers -> list Turn * option Exn :=
  fun _ _ => ([LoopTurn], Some (HandshakeError "connection reset")).


(** A caller that adds a header while the dial is still pending. *)
Definition late_header (o : JsObject) : JsObject :=
  (o ++ [("X-Late", "1")])%list.

Definition meddling : Env :=
  {| dial_result := None;
     close_again := Some BadResource;
     entropy := fun _ => x00;
     caller_while_dialing := late_header;
     handshake := accepts;
     header_value := http_strip;
     header_refused := fetch_refuses;
     write_takes := fun _ chunk => length chunk |}.

(** A collaborator during whose run the caller adds a header. *)
Definition mutated_during_handshake : URL -> Headers -> list Turn * option Exn :=
  fun _ _ => ([CallerMutates late_header; LoopTurn], None).

(** A platform on which the dial is refused. *)
Definition refusing_dial : Env :=
  {| dial_result := Some (TransportError "connection refused");
     close_again := Some BadResource;
     entropy := fun _ => x00;
     caller_while_dialing := fun o => o;
     handshake := accepts;
     header_value := http_strip;
     header_refused := fetch_refuses;
     write_takes := fun _ chunk => length chunk |}.

(** A socket whose [write] takes one byte at a time. *)
Definition stingy : Env :=
  {| dial_result := None;
     close_again := Some BadResource;
     entropy := fun _ => x00;
     caller_while_dialing := fun o => o;
     handshake := accepts;
     header_value := http_strip;
     header_refused := fetch_refuses;
     write_takes := fun _ _ => 1%nat |}.

(** A random source that happens to yield zero bytes. *)
Definition zeroes : Env :=
  {| dial_result := None;
     close_again := Some BadResource;
     entropy := fun _ => x00;
     caller_while_dialing := fun o => o;
     handshake := accepts;
     header_value := http_strip;
     header_refused := fetch_refuses;
     write_takes := fun _ chunk => length chunk |}.

(** ** The specification's wording of the claims the code departs from *)



(** "closing an already-closed socket is a no-op, not an error", for the
    sink's [close] and [abort]. *)
Definition close_is_idempotent (env : Env) (w : World) (reason : Exn) : Prop :=
  socket w = SocketClosed ->
  fst (sink_close env w) = Ret tt /\ fst (sink_abort env reason w) = Ret tt.


(** "across invocations no two results are identical and the value is not
    all-zero", for two calls in a row. *)
Definition masks_distinct_and_nonzero (env : Env) (w : World) : Prop :=
  fst (createMask env w) <> Ret [x00; x00; x00; x00] /\
  fst (createMask env (snd (createMask env w))) <> fst (createMask env w).

(** "the caller's mutations after the call have no effect": the handshake
    gets the headers the object had when the call was made. *)
Definition headers_as_of_call (env : Env) (u : URL) (w : World) : Prop :=
  forall h,
    handshake_headers env w = Ret h ->
    handshake_calls (trace (snd (createConnection env u w)))
    = h :: handshake_calls (trace w).

(** "generated unconditionally even when the handshake later fails": a
    call that reaches the handshake draws a mask. *)
Definition mask_drawn_regardless (env : Env) (u : URL) (w : World) : Prop :=
  List.filter is_handshake (trace (snd (createConnection env u w))) <> [] ->
  List.filter is_mask_draw (trace (snd (createConnection env u w))) <> [].

(** ** Further observations *)

(** [createSocketConnection]; the client class of [ws.ts] enters as its
    constructor [WS]. *)
Definition createSocketConnection {A} (WS : JsRecord -> M A) (env : Env) (u : URL)
  : M A :=
  let* connection := createConnection env u in
  WS connection.

(** The chunks written to the socket, most recent first. *)
Fixpoint written (t : list Event) : list (list byte) :=
  match t with
  | EvWrite c :: t' => c :: written t'
  | _ :: t' => written t'
  | [] => []
  end.

(** The bytes the source may still emit: what is pending before the
    stream ends or fails, as long as the loop is running. *)
Definition backlog (w : World) : list byte :=
  match loop w with
  | LoopAwaitingRead _ => pending_bytes (inbox w)
  | _ => []
  end.

Definition is_data (r : ReadOutcome) : bool :=
  match r with
  | ReadData _ => true
  | _ => false
  end.

(** Turns that do not close the sink. *)
Definition keeps_open (t : Turn) : bool :=
  match t with
  | SinkClose | SinkAbort _ => false
  | _ => true
  end.

(** A dialed socket, and a controller the loop has closed only together
    with the socket. *)
Definition closed_with_source (w : World) : Prop :=
  socket w <> NoSocket /\
  (close_requested w = true -> socket w = SocketClosed).

(** Turns that do not cancel the source. *)
Definition keeps_source (t : Turn) : bool :=
  match t with
  | SourceCancel _ => false
  | _ => true
  end.

(** * Properties *)

(** ** Port numerals *)

Lemma digit_prefix_numeral (d : Decimal.uint) :
  digit_prefix 10 (NilEmpty.string_of_uint d) = uint_digits d.
Proof.
  induction d; simpl; try reflexivity;
    (etransitivity; [|apply (f_equal (cons _) IHd)]); reflexivity.
Qed.

Lemma digits_value_numeral (d : Decimal.uint) (acc : nat) :
  fold_left (fun a x => a * 10 + x) (uint_digits d) (Z.of_nat acc)
  = Z.of_nat (Nat.of_uint_acc d acc).
Proof.
  revert acc; induction d; intros acc; simpl; try reflexivity;
    rewrite <- IHd; f_equal; rewrite Nat.tail_mul_spec; lia.
Qed.

Lemma parse_magnitude_numeral (d : Decimal.uint) :
  d <> Decimal.Nil ->
  parse_magnitude 10 (NilEmpty.string_of_uint d) = Num (Z.of_nat (Nat.of_uint d)).
Proof.
  intros Hd. unfold parse_magnitude. rewrite digit_prefix_numeral.
  assert (Hv : digits_value 10 (uint_digits d) = Z.of_nat (Nat.of_uint d))
    by apply (digits_value_numeral d 0).
  destruct d; [contradiction | exact (f_equal Num Hv) ..].
Qed.

Lemma parse_unsigned_numeral (d : Decimal.uint) :
  parse_unsigned (NilEmpty.string_of_uint d)
  = parse_magnitude 10 (NilEmpty.string_of_uint d).
Proof. destruct d; try reflexivity. destruct d; reflexivity. Qed.

Lemma parseInt_numeral (d : Decimal.uint) :
  parseInt (NilEmpty.string_of_uint d) = parse_unsigned (NilEmpty.string_of_uint d).
Proof. destruct d; reflexivity. Qed.

Lemma to_uint_nonnil (n : nat) : Nat.to_uint n <> Decimal.Nil.
Proof.
  rewrite <- (Unsigned.of_to n) at 1. rewrite Unsigned.to_of.
  unfold Decimal.unorm. destruct (Decimal.nzhead _); discriminate.
Qed.

Lemma parseInt_decimal (n : nat) : parseInt (decimal n) = Num (Z.of_nat n).
Proof.
  unfold decimal.
  rewrite parseInt_numeral, parse_unsigned_numeral, parse_magnitude_numeral
    by apply to_uint_nonnil.
  by rewrite Unsigned.of_to.
Qed.

(** ** Background activity leaves the bootstrap's own steps alone *)

Lemma quiet_refl (w : World) : quiet w w.
Proof. split; auto. by exists []. Qed.

Lemma quiet_trans (w1 w2 w3 : World) : quiet w1 w2 -> quiet w2 w3 -> quiet w1 w3.
Proof.
  intros [[t1 [E1 B1]] S1 C1 D1] [[t2 [E2 B2]] S2 C2 D2]. split; auto.
  - exists (t2 ++ t1)%list. rewrite E2, E1, app_assoc. split; [done|].
    rewrite forallb_app, B1, B2. done.
  - congruence.
Qed.

Ltac quiet_events :=
  match goal with
  | |- exists t, ?e1 :: ?e2 :: ?e3 :: ?tr = (t ++ ?tr)%list /\ _ => by exists [e1; e2; e3]
  | |- exists t, ?e1 :: ?e2 :: ?tr = (t ++ ?tr)%list /\ _ => by exists [e1; e2]
  | |- exists t, ?e1 :: ?tr = (t ++ ?tr)%list /\ _ => by exists [e1]
  | |- exists t, ?tr = (t ++ ?tr)%list /\ _ => by exists []
  end.

Ltac quiet_cases :=
  split; simpl; try quiet_events; try congruence; try done.

Lemma conn_close_quiet env w : quiet w (snd (conn_close env w)).
Proof.
  unfold conn_close, bind, emit, modify, gets, throw, ret; simpl.
  destruct (socket w) eqn:Hs, (close_again env); quiet_cases.
Qed.

Lemma conn_write_quiet env chunk w : quiet w (snd (conn_write env chunk w)).
Proof.
  unfold conn_write, bind, emit, modify, gets, throw, ret; simpl.
  destruct (socket w) eqn:Hs; quiet_cases.
Qed.

Lemma console_error_quiet label e w : quiet w (snd (console_error label e w)).
Proof. unfold console_error, emit, modify; quiet_cases. Qed.

Lemma controller_enqueue_quiet chunk w : quiet w (snd (controller_enqueue chunk w)).
Proof.
  unfold controller_enqueue, bind, emit, modify, gets, throw, ret; simpl.
  destruct (controller_shut w); quiet_cases.
Qed.

Lemma controller_close_quiet w : quiet w (snd (controller_close w)).
Proof.
  unfold controller_close, bind, emit, modify, gets, throw, ret; simpl.
  destruct (controller_shut w); quiet_cases.
Qed.

Lemma conn_read_quiet buffer r w : quiet w (snd (conn_read buffer r w)).
Proof.
  unfold conn_read, bind, emit, modify, gets, throw, ret.
  destruct r as [bs| |e]; simpl; [destruct (drop _ bs)|..]; quiet_cases.
Qed.

Lemma bind_quiet {A B} (m : M A) (k : A -> M B) w :
  quiet w (snd (m w)) -> (forall a w', quiet w' (snd (k a w'))) ->
  quiet w (snd (bind m k w)).
Proof.
  intros Hm Hk. unfold bind. destruct (m w) as [[a|e] w']; simpl in *; [|done].
  eapply quiet_trans; eauto.
Qed.

Lemma try_catch_quiet {A} (m : M A) (h : Exn -> M A) w :
  quiet w (snd (m w)) -> (forall e w', quiet w' (snd (h e w'))) ->
  quiet w (snd (try_catch m h w)).
Proof.
  intros Hm Hh. unfold try_catch. destruct (m w) as [[a|e] w']; simpl in *; [done|].
  eapply quiet_trans; eauto.
Qed.

Lemma discard_quiet {A} (m : M A) w : quiet w (snd (m w)) -> quiet w (snd (discard m w)).
Proof. done. Qed.

Lemma set_loop_quiet l w : quiet w (set_loop l w).
Proof. quiet_cases. Qed.

Lemma set_inbox_quiet i w : quiet w (set_inbox i w).
Proof. quiet_cases. Qed.

Lemma set_caller_headers_quiet h w : quiet w (set_caller_headers h w).
Proof. quiet_cases. Qed.

Lemma set_cancelled_quiet b w : quiet w (set_cancelled b w).
Proof. quiet_cases. Qed.

Lemma loop_body_quiet buffer r w : quiet w (snd (loop_body buffer r w)).
Proof.
  unfold loop_body. apply bind_quiet; [apply conn_read_quiet|].
  intros [[n|] buf] w'; simpl; [|apply quiet_refl].
  apply bind_quiet; [apply controller_enqueue_quiet | intros; apply quiet_refl].
Qed.

Lemma loop_finally_quiet env w : quiet w (snd (loop_finally env w)).
Proof.
  unfold loop_finally.
  assert (H : quiet w (snd ((controller_close >> conn_close env) w))).
  { apply bind_quiet; [apply controller_close_quiet | intros; apply conn_close_quiet]. }
  destruct ((controller_close >> conn_close env) w) as [[u|e] w']; simpl in *;
    (eapply quiet_trans; [exact H | apply set_loop_quiet]).
Qed.

Lemma read_loop_turn_quiet env w : quiet w (snd (read_loop_turn env w)).
Proof.
  unfold read_loop_turn.
  destruct (loop w) as [|buffer|u]; try apply quiet_refl.
  destruct (inbox w) as [|r rest]; [apply quiet_refl|].
  eapply quiet_trans; [apply (set_inbox_quiet rest)|].
  apply bind_quiet.
  - apply try_catch_quiet; [apply loop_body_quiet|].
    intros e w'. apply bind_quiet; [apply console_error_quiet | intros; apply quiet_refl].
  - intros [|] w'; [apply set_loop_quiet | apply loop_finally_quiet].
Qed.

Lemma run_turn_quiet env t w : quiet w (snd (run_turn env t w)).
Proof.
  destruct t; simpl.
  - apply read_loop_turn_quiet.
  - apply discard_quiet, conn_write_quiet.
  - apply discard_quiet, conn_close_quiet.
  - apply discard_quiet. unfold sink_abort.
    apply bind_quiet; [apply console_error_quiet | intros; apply conn_close_quiet].
  - apply set_cancelled_quiet.
  - apply set_caller_headers_quiet.
Qed.

Lemma run_turns_quiet env ts w : quiet w (snd (run_turns env ts w)).
Proof.
  revert w; induction ts as [|t ts IH]; intros w; simpl; [apply quiet_refl|].
  apply bind_quiet; [apply run_turn_quiet | intros; apply IH].
Qed.


(** ** Turns never throw into the suspended caller *)

Lemma loop_finally_returns env w : fst (loop_finally env w) = Ret tt.
Proof. unfold loop_finally. by destruct ((controller_close >> conn_close env) w) as [[u|e] w']. Qed.

Lemma read_loop_turn_returns env w : fst (read_loop_turn env w) = Ret tt.
Proof.
  unfold read_loop_turn.
  destruct (loop w) as [|buffer|u]; try done.
  destruct (inbox w) as [|r rest]; [done|].
  unfold bind at 1.
  destruct (try_catch _ _ _) as [[[|]|e] w'] eqn:E; simpl.
  - done.
  - apply loop_finally_returns.
  - exfalso. unfold try_catch in E.
    destruct (loop_body buffer r (set_inbox rest w)) as [[b|e'] w'']; [done|].
    unfold bind, console_error, emit, modify, ret in E. done.
Qed.

Lemma run_turn_returns env t w : fst (run_turn env t w) = Ret tt.
Proof. destruct t; try done. apply read_loop_turn_returns. Qed.

Lemma run_turns_returns env ts w : fst (run_turns env ts w) = Ret tt.
Proof.
  revert w; induction ts as [|t ts IH]; intros w; simpl; [done|].
  unfold bind. pose proof (run_turn_returns env t w) as H.
  destruct (run_turn env t w) as [[u|e] w']; simpl in H; [apply IH | done].
Qed.

(** ** The shape of a call *)

Lemma js_or_decimal (n : nat) (d : string) : js_or (decimal n) d = decimal n.
Proof.
  unfold decimal. pose proof (to_uint_nonnil n) as H.
  destruct (Nat.to_uint n); [done | reflexivity ..].
Qed.

(** [port || default], parsed: the explicit port when there is one, also
    when the URL elides it as the scheme's default. *)
Lemma resolved_port (proto : string) (d : nat) (explicit : option nat) :
  default_port proto = Some d ->
  parseInt (js_or (url_port proto explicit) (decimal d))
  = Num (Z.of_nat (default d explicit)).
Proof.
  intros Hd. destruct explicit as [p|]; simpl; [|apply parseInt_decimal].
  rewrite Hd. destruct (Nat.eqb_spec p d) as [->|Hne]; simpl.
  - apply parseInt_decimal.
  - rewrite js_or_decimal. apply parseInt_decimal.
Qed.

Lemma dial_supported env s host explicit w :
  dial env (parsed_url (scheme_protocol s) host explicit) w =
  match dial_result env with
  | Some e =>
      (Throw e,
       set_caller_headers (caller_while_dialing env (caller_headers w))
         (log_event (expected_dial s host explicit) w))
  | None => (Ret tt, after_dial env (expected_dial s host explicit) w)
  end.
Proof.
  unfold dial, parsed_url, expected_dial, port, protocol, hostname.
  destruct s; simpl;
    [ change "80" with (decimal 80) | change "80" with (decimal 80)
    | change "443" with (decimal 443) | change "443" with (decimal 443) ];
    rewrite resolved_port by reflexivity;
    unfold Deno_connect, Deno_connectTls, bind, emit, modify, while_dialing,
      settle_dial, throw, after_dial; simpl;
    by destruct (dial_result env).
Qed.

Lemma createConnection_dial_fails env u w e w1 :
  dial env u w = (Throw e, w1) -> createConnection env u w = (Throw e, w1).
Proof. intros H. unfold createConnection, bind. by rewrite H. Qed.

(** [Headers.set] refusing a header ends the call where it stands. *)
Lemma createConnection_refused env u w w1 e :
  dial env u w = (Ret tt, w1) ->
  handshake_headers env w1 = Throw e ->
  createConnection env u w = (Throw e, w1).
Proof.
  intros H Hh. unfold createConnection, copy_headers. unfold bind at 1. rewrite H.
  unfold bind at 1. unfold handshake_headers in Hh. by rewrite Hh.
Qed.

Lemma createConnection_dialed env u w w1 h :
  dial env u w = (Ret tt, w1) ->
  handshake_headers env w1 = Ret h ->
  createConnection env u w =
  match handshake_outcome env u h with
  | Some e => (conn_close env >> throw e) (leaving_handshake env u h w1)
  | None =>
      (let* mask := createMask env in ret (connection_object mask))
        (leaving_handshake env u h w1)
  end.
Proof.
  intros H Hh.
  unfold createConnection, handshake_outcome, leaving_handshake,
    entering_handshake, connection_object.
  unfold handshake_headers in Hh.
  unfold bind, try_catch, await_handshake, copy_headers, start_source,
    gets, modify, ret, emit, throw, bind.
  rewrite H, Hh. simpl.
  match goal with
  | |- context [run_turns ?e ?t ?x] =>
      pose proof (run_turns_returns e t x) as Hr;
      destruct (run_turns e t x) as [[[]|e0] w3]; simpl in Hr; [|done]
  end.
  simpl. destruct (snd (handshake env u _)) as [e|]; simpl; [|done].
  by destruct (conn_close env w3) as [[[]|e'] w4].
Qed.

(** ** The read loop, turn by turn *)

Lemma Uint8Array_length (n : nat) : length (Uint8Array n) = n.
Proof. apply repeat_length. Qed.

(** A read that fits the buffer hands back exactly its bytes. *)
Lemma subarray_of_read (bs buffer : list byte) :
  (length bs <= length buffer)%nat ->
  let n := Nat.min (length bs) (length buffer) in
  n = length bs /\ drop n bs = [] /\
  subarray 0 n (take n bs ++ drop n buffer) = bs.
Proof.
  intros Hle n. assert (Hn : n = length bs) by (unfold n; lia).
  rewrite Hn. split; [done|]. split; [by rewrite drop_all|].
  unfold subarray. rewrite drop_0, firstn_all, take_app_length. done.
Qed.

Lemma conn_read_data buffer bs w :
  (length bs <= length buffer)%nat ->
  conn_read buffer (ReadData bs) w =
  (Ret (Some (length bs), (bs ++ drop (length bs) buffer)%list),
   log_event (EvRead (Some (length bs))) w).
Proof.
  intros Hle. unfold conn_read.
  replace (Nat.min (length bs) (length buffer)) with (length bs) by lia.
  rewrite drop_all, firstn_all. reflexivity.
Qed.

Lemma live_controller_open w : live w -> controller_shut w = false.
Proof. intros (_ & Hc & _ & Hx). unfold controller_shut. by rewrite Hc, Hx. Qed.

Lemma controller_enqueue_open chunk w :
  controller_shut w = false ->
  controller_enqueue chunk w = (Ret tt, push_emitted chunk (log_event (EvEnqueue chunk) w)).
Proof. intros Hc. unfold controller_enqueue, bind, gets. simpl. by rewrite Hc. Qed.

Lemma loop_body_data buffer bs w :
  (length bs <= length buffer)%nat -> controller_shut w = false ->
  loop_body buffer (ReadData bs) w =
  (Ret true,
   push_emitted bs (log_event (EvEnqueue bs) (log_event (EvRead (Some (length bs))) w))).
Proof.
  intros Hle Hc. unfold loop_body, bind. rewrite conn_read_data by done.
  cbn [fst snd]. unfold subarray. rewrite take_app_length. cbn [drop].
  rewrite controller_enqueue_open by done. reflexivity.
Qed.

Lemma turn_on_data env w bs rest :
  live w -> inbox w = ReadData bs :: rest -> (length bs <= 1024)%nat ->
  read_loop_turn env w = (Ret tt, after_data bs rest w).
Proof.
  intros Hlive Hi Hb. pose proof (live_controller_open w Hlive) as Hc.
  destruct Hlive as (Hl & _).
  unfold read_loop_turn. rewrite Hl, Hi.
  unfold bind, try_catch.
  rewrite loop_body_data; [reflexivity | by rewrite Uint8Array_length | done].
Qed.

Lemma after_data_live bs rest w : live w -> live (after_data bs rest w).
Proof. intros (Hl & Hc & Hs & Hx). by repeat split. Qed.

Lemma conn_close_run env w :
  conn_close env w =
  (match outcome_of_close env w with Some e => Throw e | None => Ret tt end,
   set_socket (match socket w with NoSocket => NoSocket | _ => SocketClosed end)
     (log_event EvClose w)).
Proof.
  unfold conn_close, outcome_of_close, bind, emit, modify, gets, throw, ret; simpl.
  destruct w as [t s i em c l h d]; simpl.
  destruct s, (close_again env); reflexivity.
Qed.

Lemma loop_finally_run env w :
  controller_shut w = false -> socket w <> NoSocket ->
  loop_finally env w =
  (Ret tt,
   set_loop (LoopFinished (outcome_of_close env w))
     (set_socket SocketClosed
        (log_event EvClose (set_close_requested true (log_event EvControllerClose w))))).
Proof.
  intros Hc Hs. unfold loop_finally, bind, controller_close, bind, gets, emit, modify.
  simpl. rewrite Hc. rewrite conn_close_run. unfold outcome_of_close. simpl.
  destruct (socket w) eqn:E; [done|..]; simpl; by destruct (close_again env).
Qed.

Lemma turn_on_eof env w rest :
  live w -> inbox w = ReadEOF :: rest ->
  read_loop_turn env w = (Ret tt, after_termination env (EvRead None) rest w).
Proof.
  intros Hlive Hi. pose proof (live_controller_open w Hlive) as Hc.
  destruct Hlive as (Hl & _ & Hs & _). unfold read_loop_turn. rewrite Hl, Hi.
  unfold bind at 1. unfold try_catch, loop_body, conn_read, bind, emit, modify, ret.
  simpl. rewrite loop_finally_run by done. reflexivity.
Qed.

Lemma turn_on_error env w e rest :
  live w -> inbox w = ReadFail e :: rest ->
  read_loop_turn env w =
  (Ret tt,
   after_termination env (EvConsoleError "Error reading from connection:" e) rest w).
Proof.
  intros Hlive Hi. pose proof (live_controller_open w Hlive) as Hc.
  destruct Hlive as (Hl & _ & Hs & _). unfold read_loop_turn. rewrite Hl, Hi.
  unfold bind at 1. unfold try_catch, loop_body, conn_read, bind, throw,
    console_error, emit, modify, ret.
  simpl. rewrite loop_finally_run by done. reflexivity.
Qed.

Lemma entering_handshake_live env u h ev w :
  live (entering_handshake u h (after_dial env ev w)).
Proof. by repeat split. Qed.

Lemma run_loop_data env ds rest w :
  live w -> inbox w = (map ReadData ds ++ rest)%list ->
  Forall (fun d => (length d <= 1024)%nat) ds ->
  exists w', run_loop env (length ds) w = (Ret tt, w') /\
    emitted w' = (emitted w ++ ds)%list /\
    trace w' = (rev (read_events ds) ++ trace w)%list /\
    inbox w' = rest /\ socket w' = socket w /\ live w'.
Proof.
  revert w; induction ds as [|d ds IH]; intros w Hl Hi Hf.
  - exists w. simpl. rewrite app_nil_r. by repeat (split; [done|]).
  - inversion Hf as [|? ? Hd Hds]; subst.
    destruct (IH (after_data d (map ReadData ds ++ rest) w)) as (w' & Hr & He & Ht & Hi' & Hs & Hl');
      [by apply after_data_live | done | done |].
    exists w'. simpl. unfold bind. rewrite (turn_on_data env w d _ Hl Hi Hd).
    split; [done|]. rewrite He, Ht. simpl.
    rewrite <- !app_assoc. by repeat (split; [done|]).
Qed.

(** ** The trace of a whole call *)

Lemma filter_background (f : Event -> bool) (t : list Event) :
  (forall e, background e = true -> f e = false) ->
  forallb background t = true -> List.filter f t = [].
Proof.
  intros Hf. induction t as [|e t IH]; simpl; [done|].
  intros [He Ht]%andb_true_iff. by rewrite (Hf e He), IH.
Qed.

Lemma handshake_calls_app (t1 t2 : list Event) :
  handshake_calls (t1 ++ t2) = (handshake_calls t1 ++ handshake_calls t2)%list.
Proof. induction t1 as [|[] t1 IH]; simpl; by rewrite ?IH. Qed.

Lemma handshake_calls_background (t : list Event) :
  forallb background t = true -> handshake_calls t = [].
Proof. induction t as [|[] t IH]; simpl; auto; done. Qed.

Lemma createMask_run env w :
  createMask env w =
  (Ret [entropy env (drawn w + 0)%nat; entropy env (drawn w + 1)%nat;
        entropy env (drawn w + 2)%nat; entropy env (drawn w + 3)%nat],
   set_drawn (drawn w + 4)%nat (log_event (EvGetRandomValues 4) w)).
Proof. reflexivity. Qed.

(** The last thing a call that reached the handshake does. *)
Lemma createConnection_trace env u w w1 h :
  dial env u w = (Ret tt, w1) ->
  handshake_headers env w1 = Ret h ->
  exists t,
    trace (snd (createConnection env u w)) =
      (closing_event (handshake_outcome env u h) ::
       t ++ EvHandshake u h :: trace w1)%list /\
    forallb background t = true.
Proof.
  intros Hd Hh. rewrite (createConnection_dialed _ _ _ _ _ Hd Hh).
  destruct (run_turns_quiet env (fst (handshake env u h))
              (entering_handshake u h w1)) as [(t & Ht & Hb) _ _ _].
  fold (leaving_handshake env u h w1) in Ht. exists t. split; [|done].
  destruct (handshake_outcome env u h) as [e|]; unfold bind.
  - rewrite conn_close_run.
    destruct (outcome_of_close env _); simpl; by rewrite Ht.
  - rewrite createMask_run. simpl. by rewrite Ht.
Qed.

Lemma Deno_connect_run env host p w :
  Deno_connect env host p w =
  match dial_result env with
  | Some e =>
      (Throw e,
       set_caller_headers (caller_while_dialing env (caller_headers w))
         (log_event (EvConnect host p) w))
  | None => (Ret tt, after_dial env (EvConnect host p) w)
  end.
Proof.
  unfold Deno_connect, bind, emit, modify, while_dialing, settle_dial, throw.
  simpl. by destruct (dial_result env).
Qed.

Lemma Deno_connectTls_run env host p w :
  Deno_connectTls env host p w =
  match dial_result env with
  | Some e =>
      (Throw e,
       set_caller_headers (caller_while_dialing env (caller_headers w))
         (log_event (EvConnectTls host p) w))
  | None => (Ret tt, after_dial env (EvConnectTls host p) w)
  end.
Proof.
  unfold Deno_connectTls, bind, emit, modify, while_dialing, settle_dial, throw.
  simpl. by destruct (dial_result env).
Qed.

Lemma dial_trace env u w w1 :
  dial env u w = (Ret tt, w1) ->
  socket w1 = SocketOpen /\
  caller_headers w1 = caller_while_dialing env (caller_headers w) /\
  exists ev, is_dial ev = true /\ trace w1 = ev :: trace w.
Proof.
  unfold dial.
  destruct (_ || _); [|destruct (_ || _)]; [| |by unfold throw];
    rewrite ?Deno_connect_run, ?Deno_connectTls_run;
    (destruct (dial_result env); [done|]); intros [= <-];
    (split; [done|]); (split; [done|]); eexists; (split; [|reflexivity]); reflexivity.
Qed.

(** A read of any size: the chunk is what fits the buffer, the rest waits
    for the next read, and no byte is lost or moved. *)
Lemma loop_body_any_data buffer bs w :
  controller_shut w = false ->
  let n := Nat.min (length bs) (length buffer) in
  loop_body buffer (ReadData bs) w =
  (Ret true,
   push_emitted (take n bs)
     (log_event (EvEnqueue (take n bs))
        (log_event (EvRead (Some n))
           match drop n bs with
           | [] => w
           | r => set_inbox (ReadData r :: inbox w) w
           end))).
Proof.
  intros Hc n. unfold loop_body, conn_read, bind, emit, modify, ret. fold n.
  cbn [fst snd]. unfold subarray.
  rewrite take_app_length' by (rewrite length_take; lia). cbn [drop].
  rewrite controller_enqueue_open; [done|]. by destruct (drop n bs).
Qed.

Lemma turn_preserves_byte_order env w bs rest :
  live w -> inbox w = ReadData bs :: rest ->
  let w' := snd (read_loop_turn env w) in
  (concat (emitted w') ++ pending_bytes (inbox w'))%list
  = (concat (emitted w) ++ pending_bytes (inbox w))%list /\
  Forall (fun c => (length c <= 1024)%nat) (drop (length (emitted w)) (emitted w')) /\
  live w'.
Proof.
  intros Hlive Hi. pose proof (live_controller_open w Hlive) as Hshut.
  destruct Hlive as (Hl & Hc & Hs & Hx). unfold read_loop_turn. rewrite Hl, Hi.
  unfold bind, try_catch. rewrite loop_body_any_data by done.
  rewrite Uint8Array_length. set (n := Nat.min (length bs) 1024).
  cbn [snd]. split; [|split].
  - simpl. rewrite concat_app. simpl. rewrite app_nil_r, <- !app_assoc. f_equal.
    + by destruct (drop n bs).
    + pose proof (take_drop n bs) as Htd.
      destruct (drop n bs) as [|b l]; simpl.
      * by rewrite app_nil_r in Htd; rewrite Htd.
      * by rewrite <- Htd at 2; rewrite <- app_assoc.
  - simpl. replace (length (emitted w)) with
      (length (emitted match drop n bs with
                       | [] => set_inbox rest w
                       | r => set_inbox (ReadData r :: inbox (set_inbox rest w)) (set_inbox rest w)
                       end)) by (by destruct (drop n bs)).
    rewrite drop_app_length. constructor; [rewrite length_take; unfold n; lia | constructor].
  - unfold live. simpl. by destruct (drop n bs).
Qed.

(** Once finished, the loop takes no further part. *)
Lemma finished_loop_stays env w u :
  loop w = LoopFinished u -> read_loop_turn env w = (Ret tt, w).
Proof. intros H. unfold read_loop_turn. by rewrite H. Qed.

(** ** The loop and the socket stay in step *)

Lemma in_step_ext w w' :
  loop w' = loop w -> close_requested w' = close_requested w ->
  socket w' = socket w -> cancelled w' = cancelled w -> in_step w -> in_step w'.
Proof. unfold in_step. by intros -> -> -> ->. Qed.

Lemma conn_close_in_step env w : in_step w -> in_step (snd (conn_close env w)).
Proof.
  unfold in_step. rewrite conn_close_run.
  destruct w as [t s i em c l h d x]; simpl.
  destruct l as [|b|u]; [done|..].
  - intros (-> & -> & Hs & ->). by destruct s.
  - intros [-> ->]. done.
Qed.

Lemma in_step_live w b : in_step w -> loop w = LoopAwaitingRead b -> live w.
Proof.
  unfold in_step. intros H E. rewrite E in H.
  destruct H as (-> & Hc & Hs & Hx). by repeat split.
Qed.

Lemma read_loop_turn_in_step env w : in_step w -> in_step (snd (read_loop_turn env w)).
Proof.
  intros H. destruct (loop w) as [|b|u] eqn:El.
  - unfold in_step in H. by rewrite El in H.
  - pose proof (in_step_live w b H El) as Hl.
    destruct (inbox w) as [|[bs| |e] rest] eqn:Ei.
    + unfold read_loop_turn. by rewrite El, Ei.
    + destruct (turn_preserves_byte_order env w bs rest Hl Ei) as (_ & _ & (Hl' & Hc' & Hs')).
      unfold in_step. by rewrite Hl'.
    + rewrite (turn_on_eof env w rest Hl Ei). done.
    + rewrite (turn_on_error env w e rest Hl Ei). done.
  - by rewrite (finished_loop_stays env w u El).
Qed.

Lemma run_turn_in_step env t w :
  keeps_source t = true -> in_step w -> in_step (snd (run_turn env t w)).
Proof.
  intros Ht. destruct t; try done; simpl.
  - apply read_loop_turn_in_step.
  - unfold sink_write, conn_write, bind, gets, emit, modify, throw, ret.
    simpl. by destruct (socket w); apply in_step_ext.
  - apply conn_close_in_step.
  - intros H. unfold sink_abort, console_error, bind, emit, modify.
    by apply (conn_close_in_step env (log_event (EvConsoleError "Stream aborted:" reason) w)).
Qed.

(** As long as no consumer cancels the source, the loop is throughout the
    handshake either suspended on a read of a fresh buffer, with its
    controller open, or finished, with controller and socket closed. *)
Lemma run_turns_in_step env ts w :
  forallb keeps_source ts = true -> in_step w -> in_step (snd (run_turns env ts w)).
Proof.
  revert w; induction ts as [|t ts IH]; intros w Hk H; simpl in *; [done|].
  apply andb_true_iff in Hk as [Ht Hk].
  unfold bind. pose proof (run_turn_returns env t w) as Hr.
  pose proof (run_turn_in_step env t w Ht H) as Hs.
  destruct (run_turn env t w) as [[[]|e] w']; simpl in *; [by apply IH | done].
Qed.

Lemma entering_handshake_in_step env u h ev w :
  in_step (entering_handshake u h (after_dial env ev w)).
Proof. by repeat split. Qed.

Lemma dial_after env u w w1 :
  dial env u w = (Ret tt, w1) ->
  exists ev, is_dial ev = true /\ w1 = after_dial env ev w.
Proof.
  unfold dial.
  destruct (_ || _); [|destruct (_ || _)]; [| |by unfold throw];
    rewrite ?Deno_connect_run, ?Deno_connectTls_run;
    (destruct (dial_result env); [done|]); intros [= <-];
    eexists; (split; [|reflexivity]); reflexivity.
Qed.

(** * The claims *)




(** C2. For [http]/[ws] URLs the one dial of a call is a plain connect,
    for [https]/[wss] URLs a TLS connect; its port is the URL's explicit
    port when it has one and 80, respectively 443, when it has none. *)
Theorem dial_follows_scheme env s host explicit w :
  List.filter is_dial
    (trace (snd (createConnection env (parsed_url (scheme_protocol s) host explicit) w)))
  = expected_dial s host explicit :: List.filter is_dial (trace w).
Proof.
  pose proof (dial_supported env s host explicit w) as Hd.
  destruct (dial_result env) as [e|].
  - rewrite (createConnection_dial_fails _ _ _ _ _ Hd). simpl. by destruct s.
  - destruct (handshake_headers env (after_dial env (expected_dial s host explicit) w))
      as [h|e] eqn:Hh.
    + destruct (createConnection_trace _ _ _ _ _ Hd Hh) as (t & -> & Hb).
      destruct (handshake_outcome _ _ _); simpl;
        rewrite List.filter_app, (filter_background is_dial t) by (done || by intros []);
        by destruct s.
    + rewrite (createConnection_refused _ _ _ _ _ Hd Hh). simpl. by destruct s.
Qed.

(** C3. For a URL whose scheme is none of [http], [ws], [https], [wss] the
    call throws the unknown-protocol error and leaves the world as it
    found it: nothing was dialed, read, written or closed. *)
Theorem unknown_scheme_fails_before_io env u w :
  supported (protocol u) = false ->
  createConnection env u w = (Throw (unknown_protocol (protocol u)), w) /\
  List.filter is_socket_io (trace (snd (createConnection env u w)))
  = List.filter is_socket_io (trace w).
Proof.
  unfold supported. intros H.
  assert (E : createConnection env u w = (Throw (unknown_protocol (protocol u)), w)).
  { apply createConnection_dial_fails. unfold dial.
    destruct (String.eqb (protocol u) "http:"), (String.eqb (protocol u) "ws:"),
      (String.eqb (protocol u) "https:"), (String.eqb (protocol u) "wss:"); done. }
  by rewrite E.
Qed.

Lemma unknown_scheme_fails_before_io_witness :
  createConnection (deno accepts) (parsed_url "ftp:" "host" None) (initial [] [])
  = (Throw (Error "WS: Unknown protocol supplied to connect: ftp:"), initial [] []) /\
  List.filter is_socket_io
    (trace (snd (createConnection (deno accepts) (parsed_url "ftp:" "host" None) (initial [] []))))
  = [].
Proof.
  exact (unknown_scheme_fails_before_io (deno accepts) (parsed_url "ftp:" "host" None)
           (initial [] []) eq_refl).
Defined.

(** C4, the claim as the specification words it, fails on Deno's resource
    table: once the socket is closed, the sink's [close] and [abort] both
    raise [BadResource]; and when the read loop has closed the socket
    before the handshake is rejected, the clean-up's close raises it too,
    in place of the handshake's error. *)
Lemma close_twice_raises :
  let w := snd (sink_close (deno accepts) (example_started (deno accepts) [])) in
  socket w = SocketClosed /\
  ~ close_is_idempotent (deno accepts) w (Error "cancelled") /\
  fst (sink_close (deno accepts) w) = Throw BadResource /\
  fst (sink_abort (deno accepts) (Error "cancelled") w) = Throw BadResource /\
  fst (createConnection (deno rejects_after_eof) example_url
         (initial example_headers [ReadEOF])) = Throw BadResource.
Proof.
  cbv zeta. split; [reflexivity|]. split; [|by repeat split].
  intros H. by destruct (H eq_refl).
Qed.

(** C4, amended.  The sink's [close] calls the socket's [close], and its
    [abort] logs the reason and then calls the socket's [close], each
    exactly once and without looking at the socket's state.  On a socket
    that is closed already the socket stays closed, and the call raises
    exactly when the platform's [close] raises on a closed socket. *)
Theorem sink_close_forwards env w reason :
  socket w = SocketClosed ->
  sink_close env w = (outcome_of (close_again env), log_event EvClose w) /\
  sink_abort env reason w =
    (outcome_of (close_again env),
     log_event EvClose (log_event (EvConsoleError "Stream aborted:" reason) w)) /\
  socket (snd (sink_close env w)) = SocketClosed /\
  socket (snd (sink_abort env reason w)) = SocketClosed.
Proof.
  intros Hs. unfold sink_close, sink_abort, console_error, bind, emit, modify.
  rewrite !conn_close_run. unfold outcome_of_close. simpl. rewrite Hs.
  destruct w as [t s i em c l h d]; simpl in *; subst s.
  by destruct (close_again env).
Qed.

Lemma sink_close_forwards_witness :
  let w := snd (sink_close (lenient accepts) (example_started (lenient accepts) [])) in
  sink_close (lenient accepts) w = (Ret tt, log_event EvClose w) /\
  sink_abort (lenient accepts) (Error "cancelled") w =
    (Ret tt,
     log_event EvClose (log_event (EvConsoleError "Stream aborted:" (Error "cancelled")) w)) /\
  socket (snd (sink_close (lenient accepts) w)) = SocketClosed /\
  socket (snd (sink_abort (lenient accepts) (Error "cancelled") w)) = SocketClosed.
Proof.
  exact (sink_close_forwards (lenient accepts)
           (snd (sink_close (lenient accepts) (example_started (lenient accepts) [])))
           (Error "cancelled") eq_refl).
Defined.






(** C7, the claim as the specification words it, fails for a random
    source that yields zero bytes: the key is all-zero, and the next call
    returns the same key again. *)
Lemma mask_may_be_zero_and_repeat :
  fst (createMask zeroes (initial [] [])) = Ret [x00; x00; x00; x00] /\
  fst (createMask zeroes (snd (createMask zeroes (initial [] []))))
  = fst (createMask zeroes (initial [] [])) /\
  ~ masks_distinct_and_nonzero zeroes (initial [] []).
Proof.
  split; [reflexivity|]. split; [reflexivity|]. by intros [H _].
Qed.

(** C7, amended.  Every call returns four bytes, the next four the
    platform's random source yields, whatever they are: the generator
    neither inspects nor rejects a value. *)
Theorem mask_is_four_source_bytes env w :
  exists mask,
    fst (createMask env w) = Ret mask /\
    length mask = 4%nat /\
    (forall i, (i < 4)%nat -> mask !! i = Some (entropy env (drawn w + i)%nat)) /\
    drawn (snd (createMask env w)) = (drawn w + 4)%nat /\
    trace (snd (createMask env w)) = EvGetRandomValues 4 :: trace w.
Proof.
  rewrite createMask_run. eexists. split; [reflexivity|]. split; [done|].
  split; [|done]. intros i Hi.
  destruct i as [|[|[|[|i]]]]; try reflexivity. lia.
Qed.

(** C8, the claim as the specification words it, fails when the caller
    adds a header while the dial is pending: the handshake is given the
    added header. *)
Lemma late_header_is_sent :
  ~ headers_as_of_call meddling example_url (initial example_headers []) /\
  exists h,
    handshake_calls
      (trace (snd (createConnection meddling example_url (initial example_headers []))))
    = [h] /\
    h !! "x-late" = Some "1" /\
    handshake_headers meddling (initial example_headers []) = Ret example_sent /\
    example_sent !! "x-late" = None.
Proof.
  assert (E : exists h,
             handshake_calls
               (trace (snd (createConnection meddling example_url
                              (initial example_headers []))))
             = [h] /\
             h !! "x-late" = Some "1" /\
             handshake_headers meddling (initial example_headers []) = Ret example_sent /\
             example_sent !! "x-late" = None).
  { eexists. split; [reflexivity|]. by repeat split. }
  split; [|exact E].
  destruct E as (h & Hh & Hl & Hs & Hn). unfold headers_as_of_call. intros H.
  specialize (H example_sent Hs). rewrite Hh in H. injection H as ->. congruence.
Qed.

Lemma dial_with_handshake env hs u w :
  dial (with_handshake env hs) u w = dial env u w.
Proof. reflexivity. Qed.

Lemma set_each_with_handshake env hs o ks h :
  set_each (with_handshake env hs) o ks h = set_each env o ks h.
Proof.
  revert h; induction ks as [|k ks IH]; intros h; simpl; [done|].
  unfold Headers_set. simpl. destruct (header_refused env _ _); [done | apply IH].
Qed.

(** C8, amended.  The headers the handshake is given are a copy of the
    caller's object taken when the dial has settled, so they include what
    the caller changed while the dial was pending; whatever happens to
    the object from then on, under any handshake collaborator, leaves
    them as they are. *)
Theorem headers_copied_after_dial env hs u w w1 h :
  dial env u w = (Ret tt, w1) ->
  copy_into env (caller_while_dialing env (caller_headers w)) ∅ = Ret h ->
  handshake_calls (trace (snd (createConnection (with_handshake env hs) u w)))
  = h :: handshake_calls (trace w).
Proof.
  intros Hd Hc. rewrite <- (dial_with_handshake env hs) in Hd.
  destruct (dial_trace _ _ _ _ Hd) as (_ & Hh & ev & Hev & Hw1).
  assert (Hh' : handshake_headers (with_handshake env hs) w1 = Ret h).
  { unfold handshake_headers, copy_into. rewrite set_each_with_handshake, Hh. exact Hc. }
  destruct (createConnection_trace _ _ _ _ _ Hd Hh') as (t & -> & Hb). rewrite Hw1.
  destruct (handshake_outcome _ _ _); cbn [closing_event handshake_calls];
    rewrite handshake_calls_app, (handshake_calls_background t Hb);
    simpl; by destruct ev.
Qed.

Lemma headers_copied_after_dial_witness :
  handshake_calls
    (trace (snd (createConnection (with_handshake meddling mutated_during_handshake)
                   example_url (initial example_headers []))))
  = [<["x-late" := "1"]> example_sent].
Proof.
  exact (headers_copied_after_dial meddling mutated_during_handshake example_url
           (initial example_headers [])
           (after_dial meddling (EvConnect "example.test" (Num 8080))
              (initial example_headers []))
           (<["x-late" := "1"]> example_sent)
           eq_refl eq_refl).
Defined.

(** C9, the claim as the specification words it, fails when the handshake
    is rejected: the call reaches the handshake, throws, and has drawn
    nothing from the random source. *)
Lemma no_mask_after_rejection :
  let r := createConnection (deno rejects) example_url (initial example_headers []) in
  fst r = Throw (HandshakeError "unexpected status") /\
  List.filter is_handshake (trace (snd r)) <> [] /\
  List.filter is_mask_draw (trace (snd r)) = [] /\
  drawn (snd r) = 0%nat /\
  ~ mask_drawn_regardless (deno rejects) example_url (initial example_headers []).
Proof.
  cbv zeta. split; [reflexivity|]. split; [done|]. split; [reflexivity|].
  split; [reflexivity|]. intros H. by apply H.
Qed.

Lemma dial_drawn env u w w1 :
  dial env u w = (Ret tt, w1) -> drawn w1 = drawn w.
Proof.
  unfold dial.
  destruct (_ || _); [|destruct (_ || _)]; [| |by unfold throw];
    rewrite ?Deno_connect_run, ?Deno_connectTls_run;
    (destruct (dial_result env); [done|]); by intros [= <-].
Qed.

(** C9, amended.  A call that reaches the handshake draws the masking key
    after the handshake has succeeded, as its last step, and draws nothing
    when the handshake throws. *)
Theorem mask_drawn_on_success_only env u w w1 h :
  dial env u w = (Ret tt, w1) ->
  handshake_headers env w1 = Ret h ->
  let w' := snd (createConnection env u w) in
  match handshake_outcome env u h with
  | None =>
      List.filter is_mask_draw (trace w')
      = EvGetRandomValues 4 :: List.filter is_mask_draw (trace w) /\
      hd_error (trace w') = Some (EvGetRandomValues 4) /\
      drawn w' = (drawn w + 4)%nat
  | Some _ =>
      List.filter is_mask_draw (trace w') = List.filter is_mask_draw (trace w) /\
      drawn w' = drawn w
  end.
Proof.
  intros Hd Hh w'.
  destruct (createConnection_trace _ _ _ _ _ Hd Hh) as (t & Ht & Hb).
  destruct (dial_trace _ _ _ _ Hd) as (_ & _ & ev & Hev & Hw1).
  assert (Hq : drawn (leaving_handshake env u h w1) = drawn w).
  { unfold leaving_handshake.
    rewrite (quiet_drawn _ _ (run_turns_quiet env _ (entering_handshake u h w1))).
    simpl. by apply dial_drawn in Hd. }
  assert (Hf : List.filter is_mask_draw
                 (t ++ EvHandshake u h :: trace w1)
               = List.filter is_mask_draw (trace w)).
  { rewrite List.filter_app, (filter_background is_mask_draw t) by (done || by intros []).
    rewrite Hw1. simpl. by destruct ev. }
  subst w'. rewrite Ht. rewrite (createConnection_dialed _ _ _ _ _ Hd Hh).
  destruct (handshake_outcome env u h) as [e|]; unfold bind; simpl closing_event.
  - rewrite conn_close_run. split.
    + simpl. exact Hf.
    + by destruct (outcome_of_close env _).
  - rewrite createMask_run. simpl. by rewrite Hf, Hq.
Qed.

Lemma mask_drawn_on_success_only_witness :
  let w' := snd (createConnection (deno accepts) example_url (initial example_headers [])) in
  List.filter is_mask_draw (trace w') = [EvGetRandomValues 4] /\
  hd_error (trace w') = Some (EvGetRandomValues 4) /\
  drawn w' = 4%nat.
Proof.
  exact (mask_drawn_on_success_only (deno accepts) example_url
           (initial example_headers [])
           (after_dial (deno accepts) (EvConnect "example.test" (Num 8080))
              (initial example_headers []))
           example_sent eq_refl eq_refl).
Defined.

(** C10. The object a successful call returns has the properties [conn],
    [readableStream], [writableStream] and [mask] and no others; it has
    neither [bufReader] nor [bufWriter], which the exported [Connection]
    interface declares, while that interface declares neither stream
    property: the object does not conform to the interface. *)
Theorem returned_object_is_not_a_Connection env u w o :
  fst (createConnection env u w) = Ret o ->
  map fst o = ["conn"; "readableStream"; "writableStream"; "mask"] /\
  property o "bufReader" = None /\
  property o "bufWriter" = None /\
  map fst Connection = ["conn"; "bufReader"; "bufWriter"; "mask"] /\
  conforms o Connection = false.
Proof.
  destruct (dial env u w) as [[[]|e] w1] eqn:Hd.
  - destruct (handshake_headers env w1) as [h|e] eqn:Hh.
    + rewrite (createConnection_dialed _ _ _ _ _ Hd Hh).
      destruct (handshake_outcome env u h) as [e|]; unfold bind.
      * rewrite conn_close_run. by destruct (outcome_of_close env _).
      * rewrite createMask_run. by intros [= <-].
    + by rewrite (createConnection_refused _ _ _ _ _ Hd Hh).
  - by rewrite (createConnection_dial_fails _ _ _ _ _ Hd).
Qed.

Lemma returned_object_is_not_a_Connection_witness :
  let o := connection_object [x00; x01; x02; x03] in
  map fst o = ["conn"; "readableStream"; "writableStream"; "mask"] /\
  property o "bufReader" = None /\
  property o "bufWriter" = None /\
  map fst Connection = ["conn"; "bufReader"; "bufWriter"; "mask"] /\
  conforms o Connection = false.
Proof.
  exact (returned_object_is_not_a_Connection (deno accepts) example_url
           (initial example_headers []) (connection_object [x00; x01; x02; x03])
           eq_refl).
Defined.

(** * Further properties *)

(** ** Headers *)

Lemma js_get_app_fresh (o : JsObject) (k v : string) (o2 : JsObject) :
  k ∉ js_keys o -> js_get (o ++ (k, v) :: o2)%list k = Some v.
Proof.
  induction o as [|[k' v'] o IH]; simpl; intros Hk.
  - by rewrite String.eqb_refl.
  - apply not_elem_of_cons in Hk as [Hne Hk].
    destruct (String.eqb_spec k k') as [->|_]; [done | by apply IH].
Qed.

Lemma set_each_fresh env o (ks : list string) (h h' : Headers) (n : string) :
  set_each env o ks h = Ret h' ->
  n ∉ map lowercase ks ->
  h' !! n = h !! n.
Proof.
  revert h; induction ks as [|k ks IH]; intros h Hs Hn; simpl in *.
  - by injection Hs as <-.
  - apply not_elem_of_cons in Hn as [Hne Hn]. unfold Headers_set in Hs.
    destruct (header_refused env _ _); [done|].
    rewrite (IH _ Hs Hn). by rewrite lookup_insert_ne.
Qed.

Lemma set_each_dom env o (ks : list string) (h h' : Headers) :
  set_each env o ks h = Ret h' ->
  dom h' = dom h ∪ list_to_set (map lowercase ks).
Proof.
  revert h; induction ks as [|k ks IH]; intros h Hs; simpl in *.
  - injection Hs as <-. by rewrite (right_id_L ∅ (∪)).
  - unfold Headers_set in Hs. destruct (header_refused env _ _); [done|].
    rewrite (IH _ Hs).
    by rewrite dom_insert_L, (comm_L (∪) {[lowercase k]} (dom h)), (assoc_L (∪)).
Qed.

Lemma set_each_app env o (ks1 ks2 : list string) (h h' : Headers) :
  set_each env o (ks1 ++ ks2) h = Ret h' ->
  exists h1, set_each env o ks1 h = Ret h1 /\ set_each env o ks2 h1 = Ret h'.
Proof.
  revert h; induction ks1 as [|k ks1 IH]; intros h Hs; simpl in *; [eauto|].
  destruct (Headers_set env k _ h) as [h0|e]; [by apply IH | done].
Qed.

(** X1. A property of the caller's object reaches the handshake under its
    lower-cased name, with its value as [Headers.set] normalizes it,
    provided no later property has the same name up to case. *)
Theorem header_value_sent env (o1 o2 : JsObject) (k v : string) (h h' : Headers) :
  k ∉ js_keys o1 ->
  lowercase k ∉ map lowercase (js_keys o2) ->
  copy_into env (o1 ++ (k, v) :: o2)%list h = Ret h' ->
  h' !! lowercase k = Some (header_value env v).
Proof.
  intros Hk Hl Hc. unfold copy_into, js_keys in Hc. rewrite map_app in Hc.
  destruct (set_each_app _ _ _ _ _ _ Hc) as (h1 & _ & H2). simpl in H2.
  rewrite js_get_app_fresh in H2 by done. simpl in H2. unfold Headers_set in H2.
  destruct (header_refused env k _); [done|].
  rewrite (set_each_fresh _ _ _ _ _ _ H2 Hl). apply lookup_insert_eq.
Qed.

Lemma header_value_sent_witness :
  (<["authorization" := "Bearer abc"]> (<["accept" := "*/*"]> ∅) : Headers)
    !! lowercase "Authorization"
  = Some (header_value (deno accepts) "  Bearer abc ").
Proof.
  apply (header_value_sent (deno accepts) [("authorization", "old")] [("Accept", "*/*")]
           "Authorization" "  Bearer abc " ∅).
  - simpl. apply not_elem_of_cons. split; [discriminate | apply not_elem_of_nil].
  - simpl. apply not_elem_of_cons. split; [discriminate | apply not_elem_of_nil].
  - reflexivity.
Defined.

(** X2. The names the handshake is given are exactly the lower-cased
    names of the caller's object: none is dropped, none is invented. *)
Theorem header_names_sent env (o : JsObject) (h : Headers) :
  copy_into env o ∅ = Ret h ->
  dom h = list_to_set (map lowercase (js_keys o)).
Proof.
  intros Hc. unfold copy_into in Hc.
  by rewrite (set_each_dom _ _ _ _ _ Hc), dom_empty_L, (left_id_L ∅ (∪)).
Qed.

Lemma header_names_sent_witness :
  dom (<["x-late" := "1"]> example_sent)
  = list_to_set (map lowercase (js_keys (late_header example_headers))).
Proof.
  exact (header_names_sent (deno accepts) (late_header example_headers)
           (<["x-late" := "1"]> example_sent) eq_refl).
Defined.

(** X12. When [Headers.set] refuses one of the caller's headers, the call
    throws that error after the dial has succeeded and does nothing else:
    the socket it dialed is left open, nothing is closed, the source is
    not started and the handshake is not called. *)
Theorem refused_header_leaves_socket_open env u w w1 e :
  dial env u w = (Ret tt, w1) ->
  handshake_headers env w1 = Throw e ->
  let w' := snd (createConnection env u w) in
  fst (createConnection env u w) = Throw e /\
  socket w' = SocketOpen /\
  (exists ev, is_dial ev = true /\ trace w' = ev :: trace w) /\
  loop w' = loop w /\
  emitted w' = emitted w /\
  inbox w' = inbox w /\
  drawn w' = drawn w.
Proof.
  intros Hd Hh. cbv zeta. rewrite (createConnection_refused _ _ _ _ _ Hd Hh).
  destruct (dial_after _ _ _ _ Hd) as (ev & Hev & ->). simpl.
  split; [done|]. split; [done|]. split; [by exists ev|]. done.
Qed.

Lemma refused_header_leaves_socket_open_witness :
  let w := initial [("bad name", "x")] three_segments in
  let w' := snd (createConnection (deno accepts) example_url w) in
  fst (createConnection (deno accepts) example_url w)
  = Throw (TypeError "Invalid header name") /\
  socket w' = SocketOpen /\
  (exists ev, is_dial ev = true /\ trace w' = ev :: trace w) /\
  loop w' = loop w /\
  emitted w' = emitted w /\
  inbox w' = inbox w /\
  drawn w' = drawn w.
Proof.
  exact (refused_header_leaves_socket_open (deno accepts) example_url
           (initial [("bad name", "x")] three_segments)
           (after_dial (deno accepts) (EvConnect "example.test" (Num 8080))
              (initial [("bad name", "x")] three_segments))
           (TypeError "Invalid header name") eq_refl eq_refl).
Defined.

(** ** The outbound sink *)

Lemma sink_write_open env chunk w :
  socket w = SocketOpen ->
  let n := Nat.min (write_takes env (trace w) chunk) (length chunk) in
  sink_write env chunk w = (Ret n, log_event (EvWrite (take n chunk)) w).
Proof.
  intros Hs. unfold sink_write, conn_write, bind, gets, emit, modify, ret.
  simpl. by rewrite Hs.
Qed.

Lemma written_app (t1 t2 : list Event) :
  written (t1 ++ t2) = (written t1 ++ written t2)%list.
Proof. induction t1 as [|[] t1 IH]; simpl; by rewrite ?IH. Qed.

(** X3. Of each chunk written to the sink of an open socket, the socket
    gets the prefix its [write] takes, once, in the order written: the
    sink neither retries what was left nor reorders.  When the socket
    takes whole chunks, exactly the chunks written arrive.  Writing
    neither closes the socket nor touches the inbound side. *)
Theorem sink_writes_reach_socket env (cs : list (list byte)) w :
  socket w = SocketOpen ->
  let w' := snd (run_turns env (map SinkWrite cs) w) in
  (exists ps,
     rev (written (trace w')) = (rev (written (trace w)) ++ ps)%list /\
     Forall2 (fun p c => p `prefix_of` c) ps cs /\
     ((forall t c, (length c <= write_takes env t c)%nat) -> ps = cs)) /\
  socket w' = SocketOpen /\
  emitted w' = emitted w /\
  inbox w' = inbox w /\
  loop w' = loop w.
Proof.
  revert w; induction cs as [|c cs IH]; intros w Hs; simpl.
  - split; [|done]. exists []. rewrite app_nil_r. by repeat split.
  - unfold bind, discard. rewrite sink_write_open by done. cbn [snd].
    set (n := Nat.min (write_takes env (trace w) c) (length c)).
    destruct (IH (log_event (EvWrite (take n c)) w) Hs)
      as ((ps & Hw & Hp & Hall) & Ho & He & Hi & Hl).
    split; [|by rewrite Ho, He, Hi, Hl].
    exists (take n c :: ps). rewrite Hw. simpl. rewrite <- app_assoc.
    split; [done|]. split; [constructor; [apply prefix_take | done]|].
    intros Hw'. rewrite (Hall Hw'). f_equal. apply take_ge.
    unfold n. specialize (Hw' (trace w) c). lia.
Qed.

Lemma sink_writes_reach_socket_witness :
  let w := example_started stingy three_segments in
  let w' := snd (run_turns stingy (map SinkWrite [[x01; x02]; [x03]]) w) in
  (exists ps,
     rev (written (trace w')) = (rev (written (trace w)) ++ ps)%list /\
     Forall2 (fun p c => p `prefix_of` c) ps [[x01; x02]; [x03]] /\
     ((forall t c, (length c <= write_takes stingy t c)%nat) -> ps = [[x01; x02]; [x03]])) /\
  socket w' = SocketOpen /\
  emitted w' = emitted w /\
  inbox w' = inbox w /\
  loop w' = loop w.
Proof.
  exact (sink_writes_reach_socket stingy [[x01; x02]; [x03]]
           (example_started stingy three_segments) eq_refl).
Defined.

(** X4. Closing or aborting the sink of a dialed socket closes the socket,
    whatever its state was, and nothing that runs afterwards (the read
    loop, further sink calls, the caller) opens it again. *)
Theorem sink_close_is_terminal env (t : Turn) (ts : list Turn) w :
  socket w <> NoSocket ->
  keeps_open t = false ->
  socket (snd (run_turns env (t :: ts) w)) = SocketClosed.
Proof.
  intros Hs Ht. simpl. unfold bind.
  pose proof (run_turn_returns env t w) as Hr.
  assert (Hc : socket (snd (run_turn env t w)) = SocketClosed).
  { destruct t; try done; simpl; unfold sink_close, sink_abort, console_error,
      bind, emit, modify; rewrite conn_close_run; simpl; by destruct (socket w). }
  destruct (run_turn env t w) as [[[]|e] w1]; simpl in *; [|done].
  by apply (quiet_closed _ _ (run_turns_quiet env ts w1)).
Qed.

Lemma sink_close_is_terminal_witness :
  socket (snd (run_turns (deno accepts)
                 (SinkAbort (Error "cancelled") :: [LoopTurn; SinkWrite [x01]; SinkClose])
                 (example_started (deno accepts) three_segments)))
  = SocketClosed.
Proof.
  apply (sink_close_is_terminal (deno accepts) (SinkAbort (Error "cancelled"))
           [LoopTurn; SinkWrite [x01]; SinkClose]
           (example_started (deno accepts) three_segments)).
  - discriminate.
  - reflexivity.
Defined.

(** ** The inbound source *)

Lemma turn_on_any_data env w bs rest :
  live w -> inbox w = ReadData bs :: rest ->
  let n := Nat.min (length bs) 1024 in
  read_loop_turn env w =
  (Ret tt,
   set_loop (LoopAwaitingRead (Uint8Array 1024))
     (push_emitted (take n bs)
        (log_event (EvEnqueue (take n bs))
           (log_event (EvRead (Some n))
              match drop n bs with
              | [] => set_inbox rest w
              | r => set_inbox (ReadData r :: rest) (set_inbox rest w)
              end)))).
Proof.
  intros Hlive Hi n. pose proof (live_controller_open w Hlive) as Hc.
  destruct Hlive as (Hl & _). unfold read_loop_turn. rewrite Hl, Hi.
  unfold bind, try_catch. rewrite loop_body_any_data by done.
  by rewrite Uint8Array_length.
Qed.

Lemma conn_close_source env w :
  emitted (snd (conn_close env w)) = emitted w /\
  inbox (snd (conn_close env w)) = inbox w /\
  loop (snd (conn_close env w)) = loop w.
Proof. by rewrite conn_close_run. Qed.

(** What one turn adds to the source: chunks of at most 1024 bytes, taken
    off the front of the backlog. *)
Lemma run_turn_emits env t w :
  keeps_source t = true ->
  in_step w ->
  exists new,
    emitted (snd (run_turn env t w)) = (emitted w ++ new)%list /\
    Forall (fun c => (length c <= 1024)%nat) new /\
    backlog w = (concat new ++ backlog (snd (run_turn env t w)))%list.
Proof.
  intros Hk H.
  assert (Hsame : forall w', emitted w' = emitted w -> inbox w' = inbox w ->
                             loop w' = loop w ->
            exists new, emitted w' = (emitted w ++ new)%list /\
              Forall (fun c => (length c <= 1024)%nat) new /\
              backlog w = (concat new ++ backlog w')%list).
  { intros w' He Hi Hl. exists []. rewrite app_nil_r. split; [done|]. split; [done|].
    unfold backlog. by rewrite Hl, Hi. }
  destruct t; try done; simpl.
  - destruct (loop w) as [|b|u] eqn:El.
    + unfold in_step in H. by rewrite El in H.
    + pose proof (in_step_live w b H El) as Hl.
      destruct (inbox w) as [|[bs| |e] rest] eqn:Ei.
      * apply Hsame; unfold read_loop_turn; by rewrite El, Ei.
      * rewrite (turn_on_any_data env w bs rest Hl Ei). cbn [snd].
        pose proof (take_drop (Nat.min (length bs) 1024) bs) as Htd.
        exists [take (Nat.min (length bs) 1024) bs].
        assert (Hb : backlog w = (bs ++ pending_bytes rest)%list)
          by (unfold backlog; by rewrite El, Ei).
        rewrite Hb.
        destruct (drop _ bs) as [|x l]; unfold backlog; simpl;
          (split; [done|]);
          (split; [constructor; [rewrite length_take; lia | constructor]|]);
          rewrite app_nil_r.
        -- by rewrite app_nil_r in Htd; rewrite Htd.
        -- by rewrite <- Htd at 1; rewrite <- app_assoc.
      * rewrite (turn_on_eof env w rest Hl Ei). exists []. simpl.
        rewrite app_nil_r. unfold backlog. by rewrite El, Ei.
      * rewrite (turn_on_error env w e rest Hl Ei). exists []. simpl.
        rewrite app_nil_r. unfold backlog. by rewrite El, Ei.
    + rewrite (finished_loop_stays env w u El). by apply Hsame.
  - apply Hsame; unfold sink_write, conn_write, bind, gets, emit, modify, throw, ret;
      simpl; by destruct (socket w).
  - destruct (conn_close_source env w) as (He & Hi & Hl). by apply Hsame.
  - unfold sink_abort, console_error, bind, emit, modify.
    destruct (conn_close_source env (log_event (EvConsoleError "Stream aborted:" reason) w))
      as (He & Hi & Hl).
    by apply Hsame.
  - exact (Hsame (set_caller_headers (f (caller_headers w)) w) eq_refl eq_refl eq_refl).
Qed.

(** X5. Whatever else runs while the call is suspended (turns of the read
    loop, calls of the sink, the caller), short of a consumer cancelling
    the source, the source emits chunks of at most 1024 bytes whose bytes
    are, in order, the bytes the socket delivered: what has been emitted
    followed by what is still to come never changes.  Once the loop has
    finished nothing is to come, so every byte delivered before the end
    of the stream was emitted. *)
Theorem source_emits_what_was_delivered env (ts : list Turn) w :
  forallb keeps_source ts = true ->
  in_step w ->
  let w' := snd (run_turns env ts w) in
  exists new,
    emitted w' = (emitted w ++ new)%list /\
    Forall (fun c => (length c <= 1024)%nat) new /\
    (concat (emitted w') ++ backlog w')%list = (concat (emitted w) ++ backlog w)%list.
Proof.
  revert w; induction ts as [|t ts IH]; intros w Hk H; simpl in *.
  - exists []. by rewrite app_nil_r.
  - apply andb_true_iff in Hk as [Ht Hk].
    unfold bind. pose proof (run_turn_returns env t w) as Hr.
    pose proof (run_turn_in_step env t w Ht H) as Hs.
    destruct (run_turn_emits env t w Ht H) as (new1 & He1 & Hf1 & Hb1).
    destruct (run_turn env t w) as [[[]|e] w1]; simpl in *; [|done].
    destruct (IH w1 Hk Hs) as (new2 & He2 & Hf2 & Hb2).
    exists (new1 ++ new2)%list. rewrite He2, He1, <- app_assoc. split; [done|].
    split; [by apply Forall_app|].
    rewrite app_assoc, <- He1, <- He2, Hb2, He1, Hb1, concat_app.
    by rewrite <- !app_assoc.
Qed.

Lemma source_emits_what_was_delivered_witness :
  let w := example_started (deno accepts) [ReadData (repeat x07 1500); ReadEOF] in
  let w' := snd (run_turns (deno accepts) [LoopTurn; SinkWrite [x01]; LoopTurn; LoopTurn] w) in
  exists new,
    emitted w' = (emitted w ++ new)%list /\
    Forall (fun c => (length c <= 1024)%nat) new /\
    (concat (emitted w') ++ backlog w')%list = (concat (emitted w) ++ backlog w)%list.
Proof.
  apply (source_emits_what_was_delivered (deno accepts)
           [LoopTurn; SinkWrite [x01]; LoopTurn; LoopTurn]
           (example_started (deno accepts) [ReadData (repeat x07 1500); ReadEOF])).
  - reflexivity.
  - apply entering_handshake_in_step.
Defined.

Lemma run_loop_finished env n w u :
  loop w = LoopFinished u -> run_loop env n w = (Ret tt, w).
Proof.
  intros H. induction n as [|n IH]; simpl; [done|].
  unfold bind. by rewrite (finished_loop_stays env w u H).
Qed.

Lemma run_loop_add env a b w :
  snd (run_loop env (a + b) w) = snd (run_loop env b (snd (run_loop env a w))).
Proof.
  revert w; induction a as [|a IH]; intros w; simpl; [done|].
  unfold bind. pose proof (read_loop_turn_returns env w) as Hr.
  destruct (read_loop_turn env w) as [[[]|e] w1]; simpl in *; [apply IH | done].
Qed.

Lemma run_loop_one env w : snd (run_loop env 1 w) = snd (read_loop_turn env w).
Proof.
  simpl. unfold bind. pose proof (read_loop_turn_returns env w) as Hr.
  by destruct (read_loop_turn env w) as [[[]|e] w1].
Qed.

(** X6. While no consumer has cancelled the source: when the peer sends
    reads of at most 1024 bytes and then ends the stream or fails a read,
    the loop emits exactly those reads, closes the controller and then
    the socket, and stops: however many more turns it is given, it reads
    nothing of what follows. *)
Theorem stream_runs_to_completion env ds r ev rest w (k : nat) :
  live w ->
  inbox w = (map ReadData ds ++ r :: rest)%list ->
  Forall (fun d => (length d <= 1024)%nat) ds ->
  termination_event r = Some ev ->
  let w' := snd (run_loop env (length ds + (1 + k)) w) in
  emitted w' = (emitted w ++ ds)%list /\
  inbox w' = rest /\
  close_requested w' = true /\
  socket w' = SocketClosed /\
  loop w' = LoopFinished (outcome_of_close env w) /\
  rev (trace w') =
    (rev (trace w) ++ read_events ds ++ [ev; EvControllerClose; EvClose])%list.
Proof.
  intros Hl Hi Hf Hr. cbv zeta. rewrite run_loop_add.
  destruct (run_loop_data env ds (r :: rest) w Hl Hi Hf)
    as (w1 & -> & He & Ht & Hi1 & Hs1 & Hl1).
  cbn [snd]. rewrite run_loop_add, run_loop_one.
  assert (Hturn : read_loop_turn env w1 = (Ret tt, after_termination env ev rest w1)).
  { destruct r as [bs| |e]; [done|..]; injection Hr as <-.
    - by apply turn_on_eof.
    - by apply turn_on_error. }
  rewrite Hturn. cbn [snd].
  rewrite (run_loop_finished env k _ (outcome_of_close env w1)) by done.
  cbn [snd]. simpl. rewrite He, Ht.
  unfold outcome_of_close. rewrite Hs1.
  repeat (split; [done|]).
  rewrite !rev_app_distr, rev_involutive. simpl. by rewrite <- !app_assoc.
Qed.

Lemma stream_runs_to_completion_witness :
  let w := example_started (deno accepts)
             (three_segments ++ [ReadData [x09]])%list in
  let w' := snd (run_loop (deno accepts) (3 + (1 + 2)) w) in
  emitted w' = (emitted w ++ [[x01; x02]; [x03]; [x04; x05; x06]])%list /\
  inbox w' = [ReadData [x09]] /\
  close_requested w' = true /\
  socket w' = SocketClosed /\
  loop w' = LoopFinished (outcome_of_close (deno accepts) w) /\
  rev (trace w') =
    (rev (trace w) ++ read_events [[x01; x02]; [x03]; [x04; x05; x06]]
       ++ [EvRead None; EvControllerClose; EvClose])%list.
Proof.
  apply (stream_runs_to_completion (deno accepts)
           [[x01; x02]; [x03]; [x04; x05; x06]] ReadEOF (EvRead None) [ReadData [x09]]
           (example_started (deno accepts) (three_segments ++ [ReadData [x09]])%list) 2).
  - apply entering_handshake_live.
  - reflexivity.
  - repeat (constructor; [simpl; lia|]). constructor.
  - reflexivity.
Defined.

(** ** Whole calls *)

Lemma entering_handshake_in_step_open u h w :
  socket w = SocketOpen -> in_step (entering_handshake u h w).
Proof. intros H. unfold in_step. simpl. by rewrite H. Qed.

(** A controller the loop has closed comes with a closed socket. *)
Lemma conn_close_closed_with_source env w :
  closed_with_source w -> closed_with_source (snd (conn_close env w)).
Proof.
  intros [Hs Hc]. rewrite conn_close_run. unfold closed_with_source. simpl.
  by destruct (socket w).
Qed.

Lemma closed_with_source_ext w w' :
  socket w' = socket w -> close_requested w' = close_requested w ->
  closed_with_source w -> closed_with_source w'.
Proof. unfold closed_with_source. by intros -> ->. Qed.

Lemma loop_finally_closed_with_source env w :
  closed_with_source w -> closed_with_source (snd (loop_finally env w)).
Proof.
  intros [Hs Hc]. unfold loop_finally, bind, controller_close, bind, gets, emit,
    modify, throw.
  destruct (controller_shut w); simpl; [done|].
  rewrite conn_close_run. unfold closed_with_source.
  destruct (outcome_of_close env _); simpl; by destruct (socket w).
Qed.

Lemma read_loop_turn_closed_with_source env w :
  closed_with_source w -> closed_with_source (snd (read_loop_turn env w)).
Proof.
  intros H. unfold read_loop_turn.
  destruct (loop w) as [|b|u]; try done.
  destruct (inbox w) as [|r rest]; [done|].
  assert (H0 : closed_with_source (set_inbox rest w)) by done.
  revert H0. generalize (set_inbox rest w). intros w0 H0.
  unfold bind at 1.
  assert (Hb : closed_with_source
                 (snd (try_catch (loop_body b r)
                         (fun err => console_error "Error reading from connection:" err
                                     >> ret false) w0))).
  { unfold try_catch, loop_body, conn_read, controller_enqueue, console_error,
      bind, gets, emit, modify, throw, ret.
    destruct r as [bs| |e]; simpl.
    - destruct (drop _ bs); simpl; destruct (controller_shut _); simpl;
        by apply (closed_with_source_ext w0).
    - by apply (closed_with_source_ext w0).
    - by apply (closed_with_source_ext w0). }
  destruct (try_catch _ _ w0) as [[[|]|e] w1]; simpl in *.
  - by apply (closed_with_source_ext w1).
  - by apply loop_finally_closed_with_source.
  - done.
Qed.

Lemma run_turn_closed_with_source env t w :
  closed_with_source w -> closed_with_source (snd (run_turn env t w)).
Proof.
  intros H. destruct t; simpl.
  - by apply read_loop_turn_closed_with_source.
  - unfold sink_write, conn_write, bind, gets, emit, modify, throw, ret.
    simpl. destruct (socket w) eqn:E; simpl; try done;
      by apply (closed_with_source_ext w).
  - by apply conn_close_closed_with_source.
  - unfold sink_abort, console_error, bind, emit, modify.
    by apply (conn_close_closed_with_source env
                (log_event (EvConsoleError "Stream aborted:" reason) w)).
  - done.
  - done.
Qed.

Lemma run_turns_closed_with_source env ts w :
  closed_with_source w -> closed_with_source (snd (run_turns env ts w)).
Proof.
  revert w; induction ts as [|t ts IH]; intros w H; simpl; [done|].
  unfold bind. pose proof (run_turn_returns env t w) as Hr.
  pose proof (run_turn_closed_with_source env t w H) as Hs.
  destruct (run_turn env t w) as [[[]|e] w']; simpl in *; [by apply IH | done].
Qed.

(** X7. When a call that reached the handshake comes back, with an object
    or with an error, a source whose controller the loop has closed never
    comes with an open socket, whatever ran during the handshake.  And
    when no consumer cancelled the source meanwhile, the loop either
    still awaits a read with its controller open, or has finished with
    the controller and the socket both closed. *)
Theorem call_leaves_source_and_socket_in_step env u w w1 h :
  dial env u w = (Ret tt, w1) ->
  handshake_headers env w1 = Ret h ->
  let w' := snd (createConnection env u w) in
  (close_requested w' = true -> socket w' = SocketClosed) /\
  (forallb keeps_source (fst (handshake env u h)) = true -> in_step w').
Proof.
  intros Hd Hh w'. subst w'. rewrite (createConnection_dialed _ _ _ _ _ Hd Hh).
  destruct (dial_trace _ _ _ _ Hd) as (Hopen & _ & _). split.
  - assert (H2 : closed_with_source (entering_handshake u h w1)).
    { split; simpl; [by rewrite Hopen | done]. }
    pose proof (run_turns_closed_with_source env (fst (handshake env u h)) _ H2) as H3.
    fold (leaving_handshake env u h w1) in H3.
    assert (H4 : closed_with_source
                   (snd (match handshake_outcome env u h with
                         | Some e => (conn_close env >> throw e) (leaving_handshake env u h w1)
                         | None =>
                             (let* mask := createMask env in ret (connection_object mask))
                               (leaving_handshake env u h w1)
                         end))).
    { destruct (handshake_outcome env u h) as [e|]; unfold bind.
      - pose proof (conn_close_closed_with_source env _ H3) as Hc.
        by destruct (conn_close env (leaving_handshake env u h w1)) as [[[]|e'] w2].
      - rewrite createMask_run. by apply (closed_with_source_ext (leaving_handshake env u h w1)). }
    by destruct H4.
  - intros Hk.
    pose proof (run_turns_in_step env (fst (handshake env u h))
                  _ Hk (entering_handshake_in_step_open u h w1 Hopen)) as Hs.
    fold (leaving_handshake env u h w1) in Hs.
    destruct (handshake_outcome env u h) as [e|]; unfold bind.
    + pose proof (conn_close_in_step env _ Hs) as Hc.
      by destruct (conn_close env (leaving_handshake env u h w1)) as [[[]|e'] w2].
    + rewrite createMask_run. by apply (in_step_ext (leaving_handshake env u h w1)).
Qed.

Lemma call_leaves_source_and_socket_in_step_witness :
  let w' := snd (createConnection (deno rejects_after_eof) example_url
                   (initial example_headers [ReadEOF])) in
  (close_requested w' = true -> socket w' = SocketClosed) /\
  (forallb keeps_source (fst (rejects_after_eof example_url example_sent)) = true ->
   in_step w').
Proof.
  exact (call_leaves_source_and_socket_in_step (deno rejects_after_eof) example_url
           (initial example_headers [ReadEOF])
           (after_dial (deno rejects_after_eof) (EvConnect "example.test" (Num 8080))
              (initial example_headers [ReadEOF]))
           example_sent eq_refl eq_refl).
Defined.

(** X8. A call that reaches the handshake does, in this order and nothing
    else: one dial, one call of the handshake with the copied headers,
    then only reads, writes, closes, enqueues and console output of the
    endpoints, and last either the close (handshake threw) or the draw of
    the mask (handshake succeeded). *)
Theorem call_order env u w w1 h :
  dial env u w = (Ret tt, w1) ->
  copy_into env (caller_while_dialing env (caller_headers w)) ∅ = Ret h ->
  exists ev t,
    is_dial ev = true /\
    forallb background t = true /\
    trace (snd (createConnection env u w)) =
      (closing_event (handshake_outcome env u h) ::
       t ++ EvHandshake u h :: ev :: trace w)%list.
Proof.
  intros Hd Hc. destruct (dial_after _ _ _ _ Hd) as (ev & Hev & ->).
  destruct (createConnection_trace _ _ _ _ _ Hd Hc) as (t & Ht & Hb).
  exists ev, t. by repeat (split; [done|]).
Qed.

Lemma call_order_witness :
  exists ev t,
    is_dial ev = true /\
    forallb background t = true /\
    trace (snd (createConnection (deno rejects_after_eof) example_url
                  (initial example_headers [ReadEOF]))) =
      (closing_event (Some (HandshakeError "connection reset")) ::
       t ++ EvHandshake example_url example_sent :: ev :: [])%list.
Proof.
  exact (call_order (deno rejects_after_eof) example_url
           (initial example_headers [ReadEOF])
           (after_dial (deno rejects_after_eof) (EvConnect "example.test" (Num 8080))
              (initial example_headers [ReadEOF]))
           example_sent eq_refl eq_refl).
Defined.

(** X9. When the dial is refused, the call throws the dial's own error
    and has done nothing but dial: no socket was opened or closed, the
    headers were not read, the source was not started, no handshake was
    attempted. *)
Theorem dial_failure_propagates env u w e :
  supported (protocol u) = true ->
  dial_result env = Some e ->
  let w' := snd (createConnection env u w) in
  fst (createConnection env u w) = Throw e /\
  (exists ev, is_dial ev = true /\ trace w' = ev :: trace w) /\
  socket w' = socket w /\
  loop w' = loop w /\
  emitted w' = emitted w /\
  inbox w' = inbox w /\
  drawn w' = drawn w.
Proof.
  intros Hs He.
  assert (Hd : exists ev, is_dial ev = true /\
             dial env u w =
             (Throw e, set_caller_headers (caller_while_dialing env (caller_headers w))
                         (log_event ev w))).
  { unfold supported in Hs. unfold dial.
    destruct (String.eqb (protocol u) "http:" || String.eqb (protocol u) "ws:") eqn:E1.
    - rewrite Deno_connect_run, He. eexists. split; [|reflexivity]. reflexivity.
    - destruct (String.eqb (protocol u) "https:" || String.eqb (protocol u) "wss:") eqn:E2.
      + rewrite Deno_connectTls_run, He. eexists. split; [|reflexivity]. reflexivity.
      + exfalso. apply orb_false_iff in E2 as [E2a E2b].
        by rewrite E2a, E2b in Hs. }
  destruct Hd as (ev & Hev & Hd). cbv zeta.
  rewrite (createConnection_dial_fails _ _ _ _ _ Hd). simpl.
  split; [done|]. split; [by exists ev|]. done.
Qed.

Lemma dial_failure_propagates_witness :
  let env := refusing_dial in
  let w := initial example_headers three_segments in
  let w' := snd (createConnection env example_url w) in
  fst (createConnection env example_url w) = Throw (TransportError "connection refused") /\
  (exists ev, is_dial ev = true /\ trace w' = ev :: trace w) /\
  socket w' = socket w /\
  loop w' = loop w /\
  emitted w' = emitted w /\
  inbox w' = inbox w /\
  drawn w' = drawn w.
Proof.
  exact (dial_failure_propagates refusing_dial
           example_url (initial example_headers three_segments)
           (TransportError "connection refused") eq_refl eq_refl).
Defined.

Lemma run_turn_keeps_usable env t w :
  keeps_open t = true ->
  keeps_source t = true ->
  live w /\ socket w = SocketOpen /\ forallb is_data (inbox w) = true ->
  let w' := snd (run_turn env t w) in
  live w' /\ socket w' = SocketOpen /\ forallb is_data (inbox w') = true.
Proof.
  intros Ht Hk (Hl & Hs & Hi). destruct t; try done; simpl.
  - destruct (inbox w) as [|[bs| |e] rest] eqn:Ei; simpl in Hi; try done.
    + unfold read_loop_turn. destruct Hl as (El & ? & ? & ?). rewrite El, Ei. simpl.
      by rewrite Ei.
    + rewrite (turn_on_any_data env w bs rest Hl Ei). cbn [snd].
      destruct Hl as (El & Hc & Hn & Hx). unfold live.
      destruct (drop _ bs); simpl; by rewrite ?Hi.
  - unfold discard. rewrite sink_write_open by done. destruct Hl as (El & Hc & Hn & Hx).
    by repeat split.
Qed.

Lemma run_turns_keep_usable env ts w :
  forallb keeps_open ts = true ->
  forallb keeps_source ts = true ->
  live w /\ socket w = SocketOpen /\ forallb is_data (inbox w) = true ->
  let w' := snd (run_turns env ts w) in
  live w' /\ socket w' = SocketOpen /\ forallb is_data (inbox w') = true.
Proof.
  revert w; induction ts as [|t ts IH]; intros w Hk Hc Hu; simpl in *; [done|].
  apply andb_true_iff in Hk as [Ht Hk]. apply andb_true_iff in Hc as [Ht' Hc].
  unfold bind. pose proof (run_turn_returns env t w) as Hr.
  pose proof (run_turn_keeps_usable env t w Ht Ht' Hu) as Hu1.
  destruct (run_turn env t w) as [[[]|e] w1]; simpl in *; [by apply IH | done].
Qed.

(** X10. When the handshake succeeds without closing or aborting the
    sink or cancelling the source, and the peer has neither ended the
    stream nor failed a read, the returned connection is live: the socket
    is open, the source's controller is open and its stream not
    cancelled, and the loop awaits the next read. *)
Theorem quiet_handshake_gives_live_connection env u w w1 h :
  dial env u w = (Ret tt, w1) ->
  handshake_headers env w1 = Ret h ->
  handshake_outcome env u h = None ->
  forallb keeps_open (fst (handshake env u h)) = true ->
  forallb keeps_source (fst (handshake env u h)) = true ->
  forallb is_data (inbox w) = true ->
  let w' := snd (createConnection env u w) in
  (exists mask, fst (createConnection env u w) = Ret (connection_object mask)) /\
  socket w' = SocketOpen /\
  close_requested w' = false /\
  loop w' = LoopAwaitingRead (Uint8Array 1024) /\
  cancelled w' = false.
Proof.
  intros Hd Hh Ho Hk Hc Hi. cbv zeta.
  rewrite (createConnection_dialed _ _ _ _ _ Hd Hh), Ho.
  destruct (dial_after _ _ _ _ Hd) as (ev & Hev & ->).
  destruct (run_turns_keep_usable env _ (entering_handshake u h (after_dial env ev w)) Hk Hc)
    as ((Hl & Hq & _ & Hx) & Hs & _).
  { split; [apply entering_handshake_live|]. by split. }
  fold (leaving_handshake env u h (after_dial env ev w)) in Hl, Hq, Hs, Hx.
  unfold bind. rewrite createMask_run. simpl. eauto 10.
Qed.

Lemma quiet_handshake_gives_live_connection_witness :
  let w' := snd (createConnection
                   (deno (fun _ _ => ([SinkWrite [x01; x02]; LoopTurn; CallerMutates late_header], None)))
                   example_url (initial example_headers [ReadData [x03]])) in
  (exists mask,
     fst (createConnection
            (deno (fun _ _ => ([SinkWrite [x01; x02]; LoopTurn; CallerMutates late_header], None)))
            example_url (initial example_headers [ReadData [x03]]))
     = Ret (connection_object mask)) /\
  socket w' = SocketOpen /\
  close_requested w' = false /\
  loop w' = LoopAwaitingRead (Uint8Array 1024) /\
  cancelled w' = false.
Proof.
  exact (quiet_handshake_gives_live_connection
           (deno (fun _ _ => ([SinkWrite [x01; x02]; LoopTurn; CallerMutates late_header], None)))
           example_url (initial example_headers [ReadData [x03]])
           (after_dial
              (deno (fun _ _ => ([SinkWrite [x01; x02]; LoopTurn; CallerMutates late_header], None)))
              (EvConnect "example.test" (Num 8080))
              (initial example_headers [ReadData [x03]]))
           example_sent
           eq_refl eq_refl eq_refl eq_refl eq_refl eq_refl).
Defined.

(** X11. [createSocketConnection] builds the client only from a finished
    connection: when the handshake throws, it throws as well, the socket
    has been closed as the last action, and the client's constructor has
    had no part in it, whatever that constructor does. *)
Theorem no_client_after_failed_handshake {A} (WS : JsRecord -> M A) env u w w1 h e :
  dial env u w = (Ret tt, w1) ->
  handshake_headers env w1 = Ret h ->
  handshake_outcome env u h = Some e ->
  exists e',
    createSocketConnection WS env u w = (Throw e', snd (createConnection env u w)) /\
    socket (snd (createConnection env u w)) = SocketClosed /\
    hd_error (trace (snd (createConnection env u w))) = Some EvClose.
Proof.
  intros Hd Hh Ho. unfold createSocketConnection. unfold bind at 1.
  rewrite (createConnection_dialed _ _ _ _ _ Hd Hh), Ho.
  destruct (dial_trace _ _ _ _ Hd) as (Hopen & _ & _).
  assert (Hs : socket (leaving_handshake env u h w1) <> NoSocket).
  { apply (quiet_socket _ _ (run_turns_quiet env _ (entering_handshake u h w1))).
    simpl. by rewrite Hopen. }
  unfold bind. rewrite conn_close_run.
  destruct (outcome_of_close env _) as [e'|]; eexists; (split; [reflexivity|]);
    simpl; by destruct (socket (leaving_handshake env u h w1)).
Qed.

Lemma no_client_after_failed_handshake_witness :
  exists e',
    createSocketConnection (fun c => ret c) (deno rejects) example_url
      (initial example_headers [])
    = (Throw e', snd (createConnection (deno rejects) example_url (initial example_headers []))) /\
    socket (snd (createConnection (deno rejects) example_url (initial example_headers [])))
    = SocketClosed /\
    hd_error (trace (snd (createConnection (deno rejects) example_url
                            (initial example_headers [])))) = Some EvClose.
Proof.
  exact (no_client_after_failed_handshake (fun c => ret c) (deno rejects) example_url
           (initial example_headers [])
           (after_dial (deno rejects) (EvConnect "example.test" (Num 8080))
              (initial example_headers []))
           example_sent (HandshakeError "unexpected status") eq_refl eq_refl eq_refl).
Defined.
